(** * Typed configuration of scalers: the keda field tag and its parser

    A shallow embedding of [pkg/scalers/scalersconfig/typed_config.go]:
    the tag parser [paramsFromTag], the lookup [configParamValue] over the
    three string maps of a [ScalerConfig], the policy of [setValue], the
    conversion [setConfigValueHelper] and the loop of [TypedConfig].

    Go strings are byte strings, so they are [string]s of [ascii] bytes.
    The three [map[string]string] of the scaler configuration are
    [gmap string string]; reading a missing key of a Go map gives the empty
    string, written [default "" (m !! k)] below. *)

From Stdlib Require Import ZArith Ascii String List Lia DecimalString.
From Stdlib Require DecimalNat DecimalFacts.
From stdpp Require Import base option list strings gmap.

Set Warnings "-register-all".
Local Open Scope Z_scope.

(** ** The functions of package [strings] the file calls *)

Module Strings.

(** [strings.Split(s, sep)] for a separator of one byte, which is what
    every separator of the file is: the pieces between the occurrences of
    [sep], one more than there are occurrences. *)
Fixpoint Split (s : string) (sep : ascii) : list string :=
  match s with
  | EmptyString => [""]
  | String c rest =>
      if Ascii.eqb c sep then "" :: Split rest sep
      else match Split rest sep with
           | [] => [String c ""]
           | piece :: pieces => String c piece :: pieces
           end
  end.

Definition byte_is (n : N) (c : ascii) : bool := N.eqb (N_of_ascii c) n.

(** The runes [unicode.IsSpace] accepts, by their UTF-8 encodings. One
    byte: tab, line feed, vertical tab, form feed, carriage return and
    space. *)
Definition space1 (a : ascii) : bool :=
  byte_is 9 a || byte_is 10 a || byte_is 11 a || byte_is 12 a
  || byte_is 13 a || byte_is 32 a.

(** Two bytes: U+0085 and U+00A0. *)
Definition space2 (a b : ascii) : bool :=
  byte_is 194 a && (byte_is 133 b || byte_is 160 b).

(** Three bytes: U+1680, U+2000 to U+200A, U+2028, U+2029, U+202F, U+205F
    and U+3000. *)
Definition space3 (a b c : ascii) : bool :=
  (byte_is 225 a && byte_is 154 b && byte_is 128 c)
  || (byte_is 226 a && byte_is 128 b
      && ((N.leb 128 (N_of_ascii c) && N.leb (N_of_ascii c) 138)
          || byte_is 168 c || byte_is 169 c || byte_is 175 c))
  || (byte_is 226 a && byte_is 129 b && byte_is 159 c)
  || (byte_is 227 a && byte_is 128 b && byte_is 128 c).

(** Drop the runes at the front of [s] that the three tests accept. *)
Fixpoint trimFront (p1 : ascii → bool) (p2 : ascii → ascii → bool)
    (p3 : ascii → ascii → ascii → bool) (s : string) : string :=
  match s with
  | String a r1 =>
      if p1 a then trimFront p1 p2 p3 r1
      else match r1 with
           | String b r2 =>
               if p2 a b then trimFront p1 p2 p3 r2
               else match r2 with
                    | String c r3 =>
                        if p3 a b c then trimFront p1 p2 p3 r3 else s
                    | EmptyString => s
                    end
           | EmptyString => s
           end
  | EmptyString => s
  end.

Definition TrimLeft (s : string) : string :=
  trimFront space1 space2 space3 s.

(** From the end the same runes are met last byte first. *)
Definition TrimRight (s : string) : string :=
  String.rev
    (trimFront space1 (λ b a, space2 a b) (λ c b a, space3 a b c)
       (String.rev s)).

(** [strings.TrimSpace]: [TrimRightFunc (TrimLeftFunc s IsSpace) IsSpace]. *)
Definition TrimSpace (s : string) : string := TrimRight (TrimLeft s).

(** [strings.Join] of the pieces with a separator. *)
Fixpoint Join (pieces : list string) (sep : string) : string :=
  match pieces with
  | [] => ""
  | [p] => p
  | p :: rest => p +:+ sep +:+ Join rest sep
  end.

End Strings.

(** ** The verbs of package [fmt] the error messages use *)

Module Fmt.

Definition dquote : ascii := "034"%char.
Definition backslash : ascii := "092"%char.

Definition hexDigit (n : N) : ascii :=
  if N.ltb n 10 then ascii_of_N (48 + n) else ascii_of_N (87 + n).

(** One byte of [strconv.Quote]. The quote and the backslash are escaped,
    the control bytes are written with their Go escapes and the other
    bytes below [0x80] stand for themselves. Bytes from [0x80] on are part
    of a multi-byte rune; they are copied, which is what [strconv.Quote]
    does for the printable runes. *)
Definition quoteByte (c : ascii) : string :=
  let n := N_of_ascii c in
  if N.eqb n 34 then String backslash (String dquote "")
  else if N.eqb n 92 then String backslash (String backslash "")
  else if N.eqb n 7 then String backslash "a"
  else if N.eqb n 8 then String backslash "b"
  else if N.eqb n 12 then String backslash "f"
  else if N.eqb n 10 then String backslash "n"
  else if N.eqb n 13 then String backslash "r"
  else if N.eqb n 9 then String backslash "t"
  else if N.eqb n 11 then String backslash "v"
  else if N.ltb n 32 || N.eqb n 127 then
    String backslash
      (String "x" (String (hexDigit (N.div n 16)) (String (hexDigit (N.modulo n 16)) "")))
  else String c "".

Fixpoint quoteBody (s : string) : string :=
  match s with
  | EmptyString => ""
  | String c rest => quoteByte c +:+ quoteBody rest
  end.

(** The verb [%q] on a string. *)
Definition Quote (s : string) : string :=
  String dquote (quoteBody s +:+ String dquote "").

(** The verb [%d] on a slice index. *)
Definition Decimal (n : nat) : string :=
  NilEmpty.string_of_uint (Nat.to_uint n).

(** The verb [%v] on a slice of strings: the elements between brackets,
    one space between two of them. *)
Definition Bracketed (l : list string) : string :=
  "[" +:+ Strings.Join l " " +:+ "]".

End Fmt.

(** ** The shapes of fields and their values *)

(** The types a field can have here: [string], a defined type over
    [string] (with the name [reflect.Type] prints for it), [int] (64 bits),
    [bool], a map and a slice. Map keys are comparable in Go, so the key of
    a [TMap] is never itself a map or a slice. *)
Inductive rtype : Type :=
  | TString
  | TNamedString (name : string)
  | TInt
  | TBool
  | TMap (key elem : rtype)
  | TSlice (elem : rtype).

(** A map value is [None] for the nil map and otherwise its entries, one per
    key, in the order the keys were first inserted. A slice is the list of
    its elements; the nil slice is the empty list. *)
Inductive value : Type :=
  | VString (s : string)
  | VInt (n : Z)
  | VBool (b : bool)
  | VMap (entries : option (list (value * value)))
  | VSlice (elems : list value).

(** [reflect.Zero]. *)
Definition zero (t : rtype) : value :=
  match t with
  | TString | TNamedString _ => VString ""
  | TInt => VInt 0
  | TBool => VBool false
  | TMap _ _ => VMap None
  | TSlice _ => VSlice []
  end.

(** [Type.String]. *)
Fixpoint typeString (t : rtype) : string :=
  match t with
  | TString => "string"
  | TNamedString name => name
  | TInt => "int"
  | TBool => "bool"
  | TMap k e => "map[" +:+ typeString k +:+ "]" +:+ typeString e
  | TSlice e => "[]" +:+ typeString e
  end.

(** The [==] of Go on the values of key types. *)
Definition keyEq (a b : value) : bool :=
  match a, b with
  | VString x, VString y => String.eqb x y
  | VInt x, VInt y => Z.eqb x y
  | VBool x, VBool y => Bool.eqb x y
  | _, _ => false
  end.

(** [Value.SetMapIndex] on the entries of a map: the value of a key that is
    there is replaced, a new key is added. *)
Fixpoint setMapIndex (m : list (value * value)) (k v : value)
    : list (value * value) :=
  match m with
  | [] => [(k, v)]
  | (k', v') :: rest =>
      if keyEq k' k then (k', v) :: rest
      else (k', v') :: setMapIndex rest k v
  end.

(** [m[k]] with the comma-ok form. *)
Fixpoint mapIndex (m : list (value * value)) (k : value) : option value :=
  match m with
  | [] => None
  | (k', v') :: rest => if keyEq k' k then Some v' else mapIndex rest k
  end.

(** ** Errors *)

(** An error is the text [fmt.Errorf] built, a text followed by the message
    of the error it wraps with [%w], or the error [encoding/json] returned
    for an input and a target type (its text belongs to that package). *)
Inductive error : Type :=
  | ErrText (msg : string)
  | ErrWrap (msg : string) (cause : error)
  | ErrJSON (target : rtype) (input : string)
  | Aggregate (errs : list error).

(** [kerrors.NewAggregate]: nil for an empty list, otherwise one error that
    holds the list. The library drops the nil entries of its argument; the
    errors of a [list error] are never nil. *)
Definition NewAggregate (errlist : list error) : option error :=
  match errlist with
  | [] => None
  | _ :: _ => Some (Aggregate errlist)
  end.

(** [Aggregate.Errors]: the errors an aggregate holds. *)
Definition Errors (e : error) : list error :=
  match e with
  | Aggregate errs => errs
  | _ => []
  end.

(** ** Decoding with [encoding/json] into an [int] or a [bool] *)

Module Json.

Inductive decoded : Type :=
  | Null                     (* the literal null *)
  | Decoded (v : value)      (* a literal of the target type *)
  | Invalid.                 (* Unmarshal returns an error *)

(** The white space of JSON: space, tab, carriage return, line feed. *)
Definition isSpace (c : ascii) : bool :=
  Strings.byte_is 32 c || Strings.byte_is 9 c || Strings.byte_is 13 c
  || Strings.byte_is 10 c.

Fixpoint skipSpace (s : string) : string :=
  match s with
  | String c rest => if isSpace c then skipSpace rest else s
  | EmptyString => s
  end.

Definition atEnd (s : string) : bool := String.eqb (skipSpace s) "".

Definition digit (c : ascii) : option Z :=
  let n := N_of_ascii c in
  if N.leb 48 n && N.leb n 57 then Some (Z.of_N n - 48) else None.

(** The longest run of digits at the front of [s], read in base ten after
    [acc], and what follows it. *)
Fixpoint digits (s : string) (acc : Z) : Z * string :=
  match s with
  | String c rest =>
      match digit c with
      | Some d => digits rest (10 * acc + d)
      | None => (acc, s)
      end
  | EmptyString => (acc, s)
  end.

(** A JSON number without fraction and exponent: a zero alone, or digits
    that do not start with a zero. *)
Definition natural (s : string) : option (Z * string) :=
  match s with
  | String c rest =>
      match digit c with
      | Some 0 => Some (0, rest)
      | Some d => Some (digits rest d)
      | None => None
      end
  | EmptyString => None
  end.

Definition integer (s : string) : option (Z * string) :=
  match s with
  | String "-" rest =>
      match natural rest with
      | Some (n, after) => Some (- n, after)
      | None => None
      end
  | _ => natural s
  end.

Definition minInt : Z := - 2 ^ 63.
Definition maxInt : Z := 2 ^ 63 - 1.

(** After a literal only white space may follow. *)
Definition literal (word rest : string) : option string :=
  if String.prefix word rest
  then Some (String.substring (String.length word)
               (String.length rest - String.length word) rest)
  else None.

Definition isLiteral (word s : string) : bool :=
  match literal word s with
  | Some after => atEnd after
  | None => false
  end.

(** [json.Unmarshal] of [input] into a fresh [int] or [bool]. Every other
    input, whether it is not JSON, a JSON value of another kind, a number
    with a fraction or an exponent, or an integer out of range, is an
    error. The other types never reach the decoder. *)
Definition Unmarshal (t : rtype) (input : string) : decoded :=
  let s := skipSpace input in
  if isLiteral "null" s then Null
  else match t with
       | TInt =>
           match integer s with
           | Some (n, after) =>
               if atEnd after && Z.leb minInt n && Z.leb n maxInt
               then Decoded (VInt n) else Invalid
           | None => Invalid
           end
       | TBool =>
           if isLiteral "true" s then Decoded (VBool true)
           else if isLiteral "false" s then Decoded (VBool false)
           else Invalid
       | _ => Invalid
       end.

End Json.

(** ** The tag and its parameters *)

(** [type ParsingOrder string] and its three constants. *)
Definition ParsingOrder : Type := string.

Definition TriggerMetadata : ParsingOrder := "triggerMetadata".
Definition ResolvedEnv : ParsingOrder := "resolvedEnv".
Definition AuthParams : ParsingOrder := "authParams".

(** Separators of the field tag. *)
Definition tagSeparator : ascii := ","%char.
Definition tagKeySeparator : ascii := "="%char.
Definition tagValueSeparator : ascii := ";"%char.

(** Separators of map and slice elements. *)
Definition elemSeparator : ascii := ","%char.
Definition elemKeyValSeparator : ascii := "="%char.

(** Field tag parameters. *)
Definition optionalTag : string := "optional".
Definition deprecatedTag : string := "deprecated".
Definition defaultTag : string := "default".
Definition parsingOrderTag : string := "parsingOrder".
Definition nameTag : string := "name".

Module Params.
Record t : Type := Build {
  Name : string;
  Optional : bool;
  ParsingOrder : list ParsingOrder;
  Default : string;
  Deprecated : string
}.
End Params.
Abbreviation Params := Params.t.

Definition IsDeprecated (p : Params) : bool :=
  negb (String.eqb (Params.Deprecated p) "").

Definition DeprecatedMessage (p : Params) : string :=
  if String.eqb (Params.Deprecated p) deprecatedTag then ""
  else ": " +:+ Params.Deprecated p.

Module ScalerConfig.
(** Modelled from the spec: the struct [ScalerConfig] is declared in
    another file of the package; of its fields the code read here uses the
    three maps from string to string of the source bundle. *)
Record t : Type := Build {
  TriggerMetadata : gmap string string;
  ResolvedEnv : gmap string string;
  AuthParams : gmap string string
}.
End ScalerConfig.
Abbreviation ScalerConfig := ScalerConfig.t.

(** ** [configParamValue] *)

(** The [switch] of the loop body: the map to read and the key to read it
    at for one entry of the parsing order. *)
Definition source (sc : ScalerConfig) (params : Params) (po : ParsingOrder)
    : gmap string string * string :=
  if String.eqb po TriggerMetadata then
    (ScalerConfig.TriggerMetadata sc, Params.Name params)
  else if String.eqb po AuthParams then
    (ScalerConfig.AuthParams sc, Params.Name params)
  else if String.eqb po ResolvedEnv then
    (ScalerConfig.ResolvedEnv sc,
     default "" (ScalerConfig.TriggerMetadata sc !! (Params.Name params +:+ "FromEnv")))
  else
    (ScalerConfig.TriggerMetadata sc, Params.Name params).

Fixpoint configParamValueFrom (sc : ScalerConfig) (params : Params)
    (order : list ParsingOrder) : string * bool :=
  match order with
  | [] => ("", false)
  | po :: rest =>
      let '(m, key) := source sc params po in
      match m !! key with
      | Some param =>
          if negb (String.eqb param "") then (param, true)
          else configParamValueFrom sc params rest
      | None => configParamValueFrom sc params rest
      end
  end.

(** The value of the parameter based on the parsing order. *)
Definition configParamValue (sc : ScalerConfig) (params : Params)
    : string * bool :=
  configParamValueFrom sc params (Params.ParsingOrder params).

(** ** [paramsFromTag] *)

(** One pass of the loop over the clauses of the tag. [tsplit[0]] is the
    first piece of the clause and [tsplit[1]] the second. *)
Definition tagClause (tag ts : string) (params : Params)
    : Params * option error :=
  let tsplit := Strings.Split ts tagKeySeparator in
  let key := Strings.TrimSpace (nth 0 tsplit "") in
  let arg := nth 1 tsplit "" in
  let n := length tsplit in
  if String.eqb key optionalTag then
    let optional := if Nat.eqb n 1 then true else Params.Optional params in
    let optional :=
      if Nat.ltb 1 n then String.eqb (Strings.TrimSpace arg) "true"
      else optional in
    (Params.Build (Params.Name params) optional (Params.ParsingOrder params)
       (Params.Default params) (Params.Deprecated params), None)
  else if String.eqb key parsingOrderTag then
    let order :=
      if Nat.ltb 1 n then
        Params.ParsingOrder params
        ++ map Strings.TrimSpace (Strings.Split arg tagValueSeparator)
      else Params.ParsingOrder params in
    (Params.Build (Params.Name params) (Params.Optional params) order
       (Params.Default params) (Params.Deprecated params), None)
  else if String.eqb key nameTag then
    let name :=
      if Nat.ltb 1 n then Strings.TrimSpace arg else Params.Name params in
    (Params.Build name (Params.Optional params) (Params.ParsingOrder params)
       (Params.Default params) (Params.Deprecated params), None)
  else if String.eqb key deprecatedTag then
    let deprecated :=
      if Nat.eqb n 1 then deprecatedTag else Strings.TrimSpace arg in
    (Params.Build (Params.Name params) (Params.Optional params)
       (Params.ParsingOrder params) (Params.Default params) deprecated, None)
  else if String.eqb key defaultTag then
    let default :=
      if Nat.ltb 1 n then Strings.TrimSpace arg else Params.Default params in
    (Params.Build (Params.Name params) (Params.Optional params)
       (Params.ParsingOrder params) default (Params.Deprecated params), None)
  else
    (params, Some (ErrText ("unknown tag " +:+ key +:+ ": " +:+ tag))).

Fixpoint tagClauses (tag : string) (tagSplit : list string) (params : Params)
    : Params * option error :=
  match tagSplit with
  | [] => (params, None)
  | ts :: rest =>
      match tagClause tag ts params with
      | (params', None) => tagClauses tag rest params'
      | (params', Some err) => (params', Some err)
      end
  end.

(** The parameters of a field from its tag; [fieldName] is [field.Name]. *)
Definition paramsFromTag (tag : string) (fieldName : string)
    : Params * option error :=
  tagClauses tag (Strings.Split tag tagSeparator)
    (Params.Build fieldName false [] "" "").

(** ** Fields and [setConfigValueHelper] *)

(** What a call on a field does: it returns nil, it returns an error, or it
    panics. The field is changed in place, so the first two carry the value
    the field holds when the call returns. *)
Inductive outcome : Type :=
  | ReturnNil (field : value)
  | ReturnErr (err : error) (field : value)
  | Panics.

(** [reflect.TypeOf("").AssignableTo(t)] and [ConvertibleTo(t)]. *)
Definition stringAssignableTo (t : rtype) : bool :=
  match t with
  | TString => true
  | _ => false
  end.

Definition stringConvertibleTo (t : rtype) : bool :=
  match t with
  | TString | TNamedString _ => true
  | _ => false
  end.

Definition sliceElems (v : value) : list value :=
  match v with
  | VSlice elems => elems
  | _ => []
  end.

(** The loop over the clauses of a map value. [m] holds the entries the
    field has so far; [setKey] and [setElem] convert into a new holder of the
    key type and of the element type. *)
Fixpoint mapLoop (setKey setElem : string → outcome) (split : list string)
    (m : list (value * value)) : outcome :=
  match split with
  | [] => ReturnNil (VMap (Some m))
  | s :: rest =>
      let s := Strings.TrimSpace s in
      let kv := Strings.Split s elemKeyValSeparator in
      if negb (Nat.eqb (length kv) 2) then
        ReturnErr
          (ErrText ("expected format key" +:+ String elemKeyValSeparator ""
                    +:+ "value, got " +:+ Fmt.Quote s))
          (VMap (Some m))
      else
        let key := Strings.TrimSpace (nth 0 kv "") in
        let val := Strings.TrimSpace (nth 1 kv "") in
        match setKey key with
        | Panics => Panics
        | ReturnErr err _ =>
            ReturnErr (ErrWrap ("map key " +:+ Fmt.Quote key +:+ ": ") err)
              (VMap (Some m))
        | ReturnNil ifcKeyElem =>
            match setElem val with
            | Panics => Panics
            | ReturnErr err _ =>
                ReturnErr
                  (ErrWrap ("map key " +:+ Fmt.Quote key +:+ ", value "
                            +:+ Fmt.Quote val +:+ ": ") err)
                  (VMap (Some m))
            | ReturnNil ifcValueElem =>
                mapLoop setKey setElem rest (setMapIndex m ifcKeyElem ifcValueElem)
            end
        end
  end.

(** The loop over the elements of a slice value. [elemIfc] is the one holder
    made before the loop, [i] the index of the element and [field] the
    elements the field has so far. [rw] says that the field can be set. *)
Fixpoint sliceLoop (setElem : string → value → outcome) (rw : bool)
    (split : list string) (i : nat) (elemIfc : value) (field : list value)
    : outcome :=
  match split with
  | [] => ReturnNil (VSlice field)
  | s :: rest =>
      let s := Strings.TrimSpace s in
      match setElem s elemIfc with
      | Panics => Panics
      | ReturnErr err _ =>
          ReturnErr (ErrWrap ("slice element " +:+ Fmt.Decimal i +:+ ": ") err)
            (VSlice field)
      | ReturnNil elem =>
          if rw then sliceLoop setElem rw rest (S i) elem (field ++ [elem])
          else Panics
      end
  end.

(** [setConfigValueHelper valFromConfig field] for a field of type [t] that
    holds [field]. [rw] is false for a field that was reached through an
    unexported struct field: [Set] and [SetString] panic on it and
    [CanInterface] is false. A null decoded through [&ifc] leaves [ifc] nil,
    and [reflect.ValueOf(ifc).Elem()] panics on it. *)
Fixpoint setConfigValueHelper (t : rtype) (rw : bool) (valFromConfig : string)
    (field : value) : outcome :=
  if stringAssignableTo t then
    if rw then ReturnNil (VString valFromConfig) else Panics
  else if stringConvertibleTo t then
    if rw then ReturnNil (VString valFromConfig) else Panics
  else
    match t with
    | TMap key elem =>
        if rw then
          mapLoop
            (λ k, setConfigValueHelper key true k (zero key))
            (λ v, setConfigValueHelper elem true v (zero elem))
            (Strings.Split valFromConfig elemSeparator) []
        else Panics
    | TSlice elem =>
        sliceLoop (setConfigValueHelper elem true) rw
          (Strings.Split valFromConfig elemSeparator) 0 (zero elem)
          (sliceElems field)
    | _ =>
        if rw then
          match Json.Unmarshal t valFromConfig with
          | Json.Invalid =>
              ReturnErr
                (ErrWrap ("unable to unmarshal to field type " +:+ typeString t
                          +:+ ": ") (ErrJSON t valFromConfig))
                field
          | Json.Decoded v => ReturnNil v
          | Json.Null => Panics
          end
        else
          ReturnErr
            (ErrText ("unable to find matching parser for field type "
                      +:+ typeString t))
            field
    end.

(** ** [setValue] *)

(** A field of the target struct: the name and the keda tag of its
    [reflect.StructField] (the empty tag when it has none), its type,
    whether it is exported, and the value it holds. *)
Record Field : Type := {
  fieldName : string;
  fieldTag : string;
  fieldType : rtype;
  fieldExported : bool;
  fieldValue : value
}.

Definition withValue (f : Field) (v : value) : Field :=
  {| fieldName := fieldName f; fieldTag := fieldTag f;
     fieldType := fieldType f; fieldExported := fieldExported f;
     fieldValue := v |}.

(** Sets the value of the field based on the provided params. *)
Definition setValue (sc : ScalerConfig) (field : Field) (params : Params)
    : outcome :=
  let '(valFromConfig, exists_) := configParamValue sc params in
  if exists_ && IsDeprecated params then
    ReturnErr
      (ErrText ("parameter " +:+ Fmt.Quote (Params.Name params)
                +:+ " is deprecated" +:+ DeprecatedMessage params))
      (fieldValue field)
  else
    let '(valFromConfig, exists_) :=
      if negb exists_ && negb (String.eqb (Params.Default params) "")
      then (Params.Default params, true)
      else (valFromConfig, exists_) in
    if negb exists_ && (Params.Optional params || IsDeprecated params) then
      ReturnNil (fieldValue field)
    else if negb exists_
            && negb (Params.Optional params || IsDeprecated params) then
      ReturnErr
        (ErrText ("missing required parameter "
                  +:+ Fmt.Quote (Params.Name params) +:+ " in "
                  +:+ Fmt.Bracketed (Params.ParsingOrder params)))
        (fieldValue field)
    else
      match setConfigValueHelper (fieldType field) (fieldExported field)
              valFromConfig (fieldValue field) with
      | ReturnErr err v =>
          ReturnErr
            (ErrWrap ("unable to set param " +:+ Fmt.Quote (Params.Name params)
                      +:+ " value " +:+ Fmt.Quote valFromConfig +:+ ": ") err)
            v
      | o => o
      end.

(** ** [TypedConfig] *)

(** The argument of [TypedConfig]: a pointer to a struct with its fields in
    declaration order, a pointer to something else (on which [NumField]
    panics), or a value that is not a pointer. *)
Inductive target : Type :=
  | PointerToStruct (fields : list Field)
  | PointerToOther
  | NotPointer.

(** The call returns an error or nil and leaves the fields as given, or it
    panics. *)
Inductive result : Type :=
  | Returns (err : option error) (fields : list Field)
  | Panicked.

(** One pass of the loop body on a field: the error appended to [errors],
    if any, and the value the field holds afterwards. *)
Definition typedConfigField (sc : ScalerConfig) (f : Field) : outcome :=
  let tag := fieldTag f in
  if String.eqb tag "" then ReturnNil (fieldValue f)
  else
    match paramsFromTag tag (fieldName f) with
    | (_, Some err) => ReturnErr err (fieldValue f)
    | (tagParams, None) => setValue sc f tagParams
    end.

(** The loop over the fields; [errors] and [done] are the errors collected
    and the fields passed so far. *)
Fixpoint typedConfigLoop (sc : ScalerConfig) (fields : list Field)
    (errors : list error) (done : list Field) : result :=
  match fields with
  | [] => Returns (NewAggregate errors) done
  | f :: rest =>
      match typedConfigField sc f with
      | Panics => Panicked
      | ReturnNil v => typedConfigLoop sc rest errors (done ++ [withValue f v])
      | ReturnErr err v =>
          typedConfigLoop sc rest (errors ++ [err]) (done ++ [withValue f v])
      end
  end.

Definition TypedConfig (sc : ScalerConfig) (typedConfig : target) : result :=
  match typedConfig with
  | NotPointer => Returns (Some (ErrText "typedConfig must be a pointer")) []
  | PointerToOther => Panicked
  | PointerToStruct fields => typedConfigLoop sc fields [] []
  end.

(** * Vocabulary of the statements *)

(** An entry of the parsing order resolves to [v] when the key of its
    [switch] case is in the map of that case with the value [v], and [v] is
    not the empty string. *)
Definition resolves (sc : ScalerConfig) (params : Params) (po : ParsingOrder)
    (v : string) : Prop :=
  (source sc params po).1 !! (source sc params po).2 = Some v ∧ v ≠ "".

Definition unresolved (sc : ScalerConfig) (params : Params)
    (po : ParsingOrder) : Prop :=
  ∀ v, ¬ resolves sc params po v.

(** The configuration with another map of resolved environment values. *)
Definition withResolvedEnv (sc : ScalerConfig) (env : gmap string string)
    : ScalerConfig :=
  ScalerConfig.Build (ScalerConfig.TriggerMetadata sc) env
    (ScalerConfig.AuthParams sc).

(** The raw value [setValue] converts: the value a source supplies, and the
    default when no source supplies one. *)
Definition rawValue (sc : ScalerConfig) (params : Params) : string :=
  if (configParamValue sc params).2 then (configParamValue sc params).1
  else Params.Default params.

(** An error [setValue] raises before it converts anything: the parameter
    is deprecated and a value was supplied, or it is required and missing. *)
Definition raisedBeforeConversion (params : Params) (err : error) : Prop :=
  err = ErrText ("parameter " +:+ Fmt.Quote (Params.Name params)
                 +:+ " is deprecated" +:+ DeprecatedMessage params)
  ∨ err = ErrText ("missing required parameter "
                   +:+ Fmt.Quote (Params.Name params) +:+ " in "
                   +:+ Fmt.Bracketed (Params.ParsingOrder params)).

(** What a field holds when the conversion of the raw value [val] has failed
    with the error [cause]. The raw value is cut at its failing piece [bad]:
    every piece of [pre] was converted, and [bad] is the one that gives
    [cause]. A map field then holds a new map with the entries of the
    clauses of [pre] and nothing else; a slice field holds the elements it
    had followed by the elements converted from the pieces of [pre], one for
    each; a field of another type holds the value it had. *)
Definition heldAfterError (val : string) (f : Field) (cause : error)
    (field' : value) : Prop :=
  match fieldType f with
  | TMap key elem =>
      ∃ pre bad post m,
        Strings.Split val elemSeparator = pre ++ bad :: post
        ∧ mapLoop (λ k, setConfigValueHelper key true k (zero key))
            (λ v, setConfigValueHelper elem true v (zero elem)) pre []
          = ReturnNil (VMap (Some m))
        ∧ mapLoop (λ k, setConfigValueHelper key true k (zero key))
            (λ v, setConfigValueHelper elem true v (zero elem)) [bad] m
          = ReturnErr cause (VMap (Some m))
        ∧ field' = VMap (Some m)
  | TSlice elem =>
      ∃ pre bad post added,
        Strings.Split val elemSeparator = pre ++ bad :: post
        ∧ sliceLoop (setConfigValueHelper elem true) (fieldExported f) pre
            0 (zero elem) (sliceElems (fieldValue f))
          = ReturnNil (VSlice (sliceElems (fieldValue f) ++ added))
        ∧ sliceLoop (setConfigValueHelper elem true) (fieldExported f)
            (pre ++ [bad]) 0 (zero elem) (sliceElems (fieldValue f))
          = ReturnErr cause (VSlice (sliceElems (fieldValue f) ++ added))
        ∧ length added = length pre
        ∧ field' = VSlice (sliceElems (fieldValue f) ++ added)
  | _ => field' = fieldValue f
  end.

(** The key of a clause of the tag, as the parser reads it, and the keys
    the parser knows. *)
Definition clauseKey (ts : string) : string :=
  Strings.TrimSpace (nth 0 (Strings.Split ts tagKeySeparator) "").

Definition knownKeys : list string :=
  [nameTag; parsingOrderTag; optionalTag; defaultTag; deprecatedTag].

(** The error of an outcome, and the field after it. *)
Definition outcomeError (o : outcome) : option error :=
  match o with
  | ReturnErr err _ => Some err
  | _ => None
  end.

Definition outcomeField (f : Field) (o : outcome) : Field :=
  match o with
  | ReturnNil v | ReturnErr _ v => withValue f v
  | Panics => f
  end.

(** White space around the elements of a raw value. A blank string is made
    of the white space bytes of ASCII; a trimmed string neither starts nor
    ends with white space; [lacks sep s] says that the byte [sep] is not in
    [s]. *)
Fixpoint allBytes (p : ascii → bool) (s : string) : bool :=
  match s with
  | EmptyString => true
  | String c rest => p c && allBytes p rest
  end.

Definition isBlank (w : string) : bool := allBytes Strings.space1 w.

Definition lacks (sep : ascii) (s : string) : bool :=
  allBytes (λ c, negb (Ascii.eqb c sep)) s.

Definition trimmed (s : string) : Prop :=
  Strings.TrimLeft s = s ∧ Strings.TrimRight s = s.

Definition isAscii (c : ascii) : bool := N.ltb (N_of_ascii c) 128.

(** [s] is empty or starts with a byte of ASCII. *)
Definition startsAscii (s : string) : bool :=
  match s with
  | EmptyString => true
  | String c _ => isAscii c
  end.

(** A text between two runs of white space, as it stands in a raw value. *)
Record padded : Type := Pad {
  padLeft : string;
  padText : string;
  padRight : string
}.

Definition padString (p : padded) : string :=
  padLeft p +:+ padText p +:+ padRight p.

(** The pads are blank, and the text is trimmed and has no separator of
    elements in it. *)
Definition wellPadded (p : padded) : Prop :=
  isBlank (padLeft p) = true ∧ isBlank (padRight p) = true
  ∧ trimmed (padText p)
  ∧ lacks elemSeparator (padText p) = true.

(** A clause of a map value: a key and an element on the two sides of the
    separator, with and without the white space around them. *)
Definition paddedClause (kv : padded * padded) : string :=
  padString kv.1 +:+ String elemKeyValSeparator "" +:+ padString kv.2.

Definition plainClause (kv : padded * padded) : string :=
  padText kv.1 +:+ String elemKeyValSeparator "" +:+ padText kv.2.

(** The key and the element are well padded, and neither has the separator
    of key and element in it. *)
Definition wellPaddedClause (kv : padded * padded) : Prop :=
  wellPadded kv.1 ∧ wellPadded kv.2
  ∧ lacks elemKeyValSeparator (padText kv.1) = true
  ∧ lacks elemKeyValSeparator (padText kv.2) = true.

(** An exported field at the zero value of its type, as the fields of the
    structs the tests declare. *)
Definition testField (name tag : string) (t : rtype) : Field :=
  {| fieldName := name; fieldTag := tag; fieldType := t;
     fieldExported := true; fieldValue := zero t |}.


(** ** A declarative reading of the tag *)

(** The second piece of a clause, trimmed, and whether the clause has one. *)
Definition clauseArg (ts : string) : string :=
  Strings.TrimSpace (nth 1 (Strings.Split ts tagKeySeparator) "").

Definition hasArg (ts : string) : bool :=
  Nat.ltb 1 (length (Strings.Split ts tagKeySeparator)).

Definition keyIs (key ts : string) : bool := String.eqb (clauseKey ts) key.

(** The name: the argument of the last [name] clause that has one,
    otherwise the name of the field. *)
Definition tagName (fieldName : string) (clauses : list string) : string :=
  List.last
    (map clauseArg (List.filter (λ ts, keyIs nameTag ts && hasArg ts) clauses))
    fieldName.

(** The default: the argument of the last [default] clause that has one. *)
Definition tagDefault (clauses : list string) : string :=
  List.last
    (map clauseArg (List.filter (λ ts, keyIs defaultTag ts && hasArg ts) clauses))
    "".

(** The marker: for the last [deprecated] clause, its argument when it has
    one and the word [deprecated] when it is bare. *)
Definition tagDeprecated (clauses : list string) : string :=
  List.last
    (map (λ ts, if hasArg ts then clauseArg ts else deprecatedTag)
       (List.filter (keyIs deprecatedTag) clauses))
    "".

(** The flag: for the last [optional] clause, whether its argument is the
    word [true], and true when it is bare. *)
Definition tagOptional (clauses : list string) : bool :=
  List.last
    (map (λ ts, if hasArg ts then String.eqb (clauseArg ts) "true" else true)
       (List.filter (keyIs optionalTag) clauses))
    false.

(** The parsing order: the trimmed tokens of every [parsingOrder] clause
    that has an argument, one clause after the other. *)
Definition tagOrder (clauses : list string) : list ParsingOrder :=
  concat
    (map (λ ts, map Strings.TrimSpace
                  (Strings.Split (nth 1 (Strings.Split ts tagKeySeparator) "")
                     tagValueSeparator))
       (List.filter (λ ts, keyIs parsingOrderTag ts && hasArg ts) clauses)).

(** ** Values of a type *)

(** The values a field of type [t] can hold: a string, an integer of 64
    bits, a boolean, the nil map or a map whose keys and elements have the
    key and element types, a slice whose elements have the element type. *)
Fixpoint hasType (t : rtype) (v : value) : Prop :=
  match t with
  | TString | TNamedString _ => ∃ s, v = VString s
  | TInt => ∃ n, v = VInt n ∧ Json.minInt ≤ n ≤ Json.maxInt
  | TBool => ∃ b, v = VBool b
  | TMap key elem =>
      v = VMap None
      ∨ ∃ m, v = VMap (Some m)
             ∧ Forall (λ kv : value * value, hasType key kv.1 ∧ hasType elem kv.2) m
  | TSlice elem => ∃ l, v = VSlice l ∧ Forall (hasType elem) l
  end.

Definition isSlice (t : rtype) : bool :=
  match t with
  | TSlice _ => true
  | _ => false
  end.

(** No key of the entries is equal, for Go, to a key after it. *)
Fixpoint uniqueKeys (m : list (value * value)) : Prop :=
  match m with
  | [] => True
  | (k, _) :: rest =>
      Forall (λ kv : value * value, keyEq k kv.1 = false) rest ∧ uniqueKeys rest
  end.


(** ** Fields of a struct *)

(** Two fields that differ in the value they hold at most. *)
Definition sameField (f f' : Field) : Prop :=
  fieldName f' = fieldName f ∧ fieldTag f' = fieldTag f
  ∧ fieldType f' = fieldType f ∧ fieldExported f' = fieldExported f.

(** The field holds a value of its type. *)
Definition wellTyped (f : Field) : Prop := hasType (fieldType f) (fieldValue f).

(** The errors an error value of [TypedConfig] holds: none for nil. *)
Definition errorsOf (err : option error) : list error :=
  match err with
  | Some e => Errors e
  | None => []
  end.

(** The types whose conversion never decodes JSON: strings, and maps and
    slices of such types. *)
Fixpoint jsonFree (t : rtype) : bool :=
  match t with
  | TString | TNamedString _ => true
  | TInt | TBool => false
  | TMap key elem => jsonFree key && jsonFree elem
  | TSlice elem => jsonFree elem
  end.

(** ** Integers as text *)

(** The decimal text of an integer, as [strconv.Itoa] writes it: the
    digits without leading zero, after a minus sign when it is negative. *)
Definition Itoa (n : Z) : string :=
  if Z.ltb n 0 then String "-" (Fmt.Decimal (Z.to_nat (- n)))
  else Fmt.Decimal (Z.to_nat n).

(** ** Clauses of a tag with white space around their parts *)

(** A clause of a tag as it is written: a key alone, or a key and an
    argument on the two sides of the separator, each between blanks. *)
Inductive writtenClause : Type :=
  | BareClause (key : padded)
  | ArgClause (key arg : padded).

Definition clauseWritten (c : writtenClause) : string :=
  match c with
  | BareClause key => padString key
  | ArgClause key arg =>
      padString key +:+ String tagKeySeparator "" +:+ padString arg
  end.

Definition clausePlain (c : writtenClause) : string :=
  match c with
  | BareClause key => padText key
  | ArgClause key arg =>
      padText key +:+ String tagKeySeparator "" +:+ padText arg
  end.

(** The pads are blank and the text has none of the two separators. *)
Definition partOk (p : padded) : Prop :=
  isBlank (padLeft p) = true ∧ isBlank (padRight p) = true
  ∧ lacks tagSeparator (padText p) = true
  ∧ lacks tagKeySeparator (padText p) = true.

Definition clauseOk (c : writtenClause) : Prop :=
  match c with
  | BareClause key => partOk key
  | ArgClause key arg => partOk key ∧ partOk arg
  end.

(** ** Clauses of a map value *)

(** The clause, trimmed, has exactly one separator of key and element. *)
Definition keyValueClause (s : string) : Prop :=
  length (Strings.Split (Strings.TrimSpace s) elemKeyValSeparator) = 2%nat.

(** The entry a clause of a map from strings to strings stands for: the
    trimmed texts on the two sides of the separator. *)
Definition clauseEntry (s : string) : value * value :=
  let kv := Strings.Split (Strings.TrimSpace s) elemKeyValSeparator in
  (VString (Strings.TrimSpace (nth 0 kv "")),
   VString (Strings.TrimSpace (nth 1 kv ""))).

(** The map after the entries of [clauses] were put, in their order, into
    the map [m]. *)
Definition withEntries (m : list (value * value)) (clauses : list string)
    : list (value * value) :=
  fold_left (λ m s, setMapIndex m (clauseEntry s).1 (clauseEntry s).2)
    clauses m.

(** * Properties *)

(** ** Resolution of the raw value *)

Section Resolution.
Context (sc : ScalerConfig) (params : Params).

Lemma configParamValueFrom_hit po rest v :
  resolves sc params po v →
  configParamValueFrom sc params (po :: rest) = (v, true).
Proof.
  intros [Hm Hv]. simpl. destruct (source sc params po) as [m key].
  simpl in Hm. rewrite Hm.
  destruct (String.eqb_spec v ""); [contradiction | reflexivity].
Qed.

Lemma configParamValueFrom_miss po rest :
  unresolved sc params po →
  configParamValueFrom sc params (po :: rest)
  = configParamValueFrom sc params rest.
Proof.
  intros Hno. simpl. pose proof (Hno) as Hno'. unfold unresolved, resolves in Hno'.
  destruct (source sc params po) as [m key]. simpl in Hno'.
  destruct (m !! key) as [param|] eqn:Hm; [|reflexivity].
  destruct (String.eqb_spec param ""); [reflexivity|].
  exfalso. apply (Hno' param). split; [reflexivity | assumption].
Qed.

Lemma resolves_dec po : (∃ v, resolves sc params po v) ∨ unresolved sc params po.
Proof.
  unfold unresolved, resolves.
  destruct ((source sc params po).1 !! (source sc params po).2) as [v|] eqn:Hm.
  - destruct (String.eqb_spec v "") as [->|Hne].
    + right. intros w [Hw Hne]. congruence.
    + left. exists v. split; [reflexivity | assumption].
  - right. intros w [Hw _]. discriminate.
Qed.

Lemma configParamValueFrom_skip pre rest :
  Forall (unresolved sc params) pre →
  configParamValueFrom sc params (pre ++ rest)
  = configParamValueFrom sc params rest.
Proof.
  induction 1 as [|po pre Hpo _ IH]; [reflexivity|].
  change ((po :: pre) ++ rest) with (po :: (pre ++ rest)).
  rewrite configParamValueFrom_miss by assumption. exact IH.
Qed.

Lemma configParamValueFrom_found order v :
  configParamValueFrom sc params order = (v, true) ↔
  ∃ pre po post,
    order = pre ++ po :: post ∧ Forall (unresolved sc params) pre
    ∧ resolves sc params po v.
Proof.
  split.
  - induction order as [|po order IH]; [discriminate|].
    intros Hrun. destruct (resolves_dec po) as [[w Hw]|Hno].
    + rewrite (configParamValueFrom_hit _ _ _ Hw) in Hrun.
      injection Hrun as ->. exists [], po, order. auto.
    + rewrite configParamValueFrom_miss in Hrun by assumption.
      destruct (IH Hrun) as (pre & po' & post & -> & Hpre & Hres).
      exists (po :: pre), po', post. auto.
  - intros (pre & po & post & -> & Hpre & Hres).
    rewrite configParamValueFrom_skip by assumption.
    apply configParamValueFrom_hit, Hres.
Qed.

Lemma configParamValueFrom_none order v :
  configParamValueFrom sc params order = (v, false) ↔
  v = "" ∧ Forall (unresolved sc params) order.
Proof.
  split.
  - induction order as [|po order IH]; intros Hrun.
    + injection Hrun as <-. auto.
    + destruct (resolves_dec po) as [[w Hw]|Hno].
      * rewrite (configParamValueFrom_hit _ _ _ Hw) in Hrun. discriminate.
      * rewrite configParamValueFrom_miss in Hrun by assumption.
        destruct (IH Hrun) as [-> Hall]. auto.
  - intros [-> Hall].
    rewrite <- (app_nil_r order), configParamValueFrom_skip by assumption.
    reflexivity.
Qed.

End Resolution.


(** ** The three sources and the entries that name none of them *)

Lemma source_unknown sc params po :
  po ≠ TriggerMetadata → po ≠ ResolvedEnv → po ≠ AuthParams →
  source sc params po = (ScalerConfig.TriggerMetadata sc, Params.Name params).
Proof.
  intros H1 H2 H3. unfold source.
  destruct (String.eqb_spec po TriggerMetadata); [contradiction|].
  destruct (String.eqb_spec po AuthParams); [contradiction|].
  destruct (String.eqb_spec po ResolvedEnv); [contradiction|reflexivity].
Qed.

(** Only the name of the parameters matters to the lookup. *)
Lemma source_name sc p p' po :
  Params.Name p = Params.Name p' → source sc p po = source sc p' po.
Proof. intros H. unfold source. rewrite H. reflexivity. Qed.

Lemma configParamValueFrom_name sc p p' order :
  Params.Name p = Params.Name p' →
  configParamValueFrom sc p order = configParamValueFrom sc p' order.
Proof.
  intros H. induction order as [|po order IH]; [reflexivity|].
  simpl. rewrite (source_name sc p p' po H), IH. reflexivity.
Qed.

Lemma configParamValueFrom_same_source sc sc' p order :
  (∀ po, In po order →
     (source sc p po).1 !! (source sc p po).2
     = (source sc' p po).1 !! (source sc' p po).2) →
  configParamValueFrom sc p order = configParamValueFrom sc' p order.
Proof.
  induction order as [|po order IH]; intros Hsame; [reflexivity|].
  simpl. pose proof (Hsame po (or_introl eq_refl)) as Hpo.
  destruct (source sc p po) as [m key], (source sc' p po) as [m' key'].
  simpl in Hpo. rewrite Hpo, IH; [reflexivity|].
  intros po' Hin. apply Hsame. right. exact Hin.
Qed.

Lemma configParamValueFrom_replace sc p po po' pre post :
  source sc p po = source sc p po' →
  configParamValueFrom sc p (pre ++ po :: post)
  = configParamValueFrom sc p (pre ++ po' :: post).
Proof.
  intros Hsrc. induction pre as [|q pre IH].
  - simpl. rewrite Hsrc. reflexivity.
  - simpl. rewrite IH. reflexivity.
Qed.

(** C4. A [resolvedEnv] entry of the parsing order is resolved through the
    trigger metadata: when no entry before it resolves, the value is what
    [ResolvedEnv] holds at the key found in [TriggerMetadata] under the name
    followed by [FromEnv] (if that is a non-empty string, otherwise the entries
    after it are tried); and the outcome depends on [ResolvedEnv] at that key
    only, so the name itself is never used as a key of [ResolvedEnv]. *)
Theorem resolvedEnv_entry_is_indirect :
  ∀ (sc : ScalerConfig) (params : Params) (pre post : list ParsingOrder),
    Params.ParsingOrder params = pre ++ ResolvedEnv :: post →
    Forall (unresolved sc params) pre →
    let key :=
      default ""
        (ScalerConfig.TriggerMetadata sc !! (Params.Name params +:+ "FromEnv")) in
    configParamValue sc params
    = match ScalerConfig.ResolvedEnv sc !! key with
      | Some v =>
          if String.eqb v "" then configParamValueFrom sc params post
          else (v, true)
      | None => configParamValueFrom sc params post
      end
    ∧ ∀ env' : gmap string string,
        env' !! key = ScalerConfig.ResolvedEnv sc !! key →
        configParamValue (withResolvedEnv sc env') params
        = configParamValue sc params.
Proof.
  intros sc params pre post Horder Hpre key. split.
  - unfold configParamValue. rewrite Horder.
    rewrite configParamValueFrom_skip by assumption.
    simpl. fold key.
    destruct (ScalerConfig.ResolvedEnv sc !! key) as [v|]; [|reflexivity].
    destruct (String.eqb v ""); reflexivity.
  - intros env' Henv. unfold configParamValue.
    apply configParamValueFrom_same_source. intros po _.
    destruct (String.eqb_spec po ResolvedEnv) as [->|Hne].
    + simpl. exact Henv.
    + unfold source.
      destruct (String.eqb po TriggerMetadata); [reflexivity|].
      destruct (String.eqb po AuthParams); [reflexivity|].
      destruct (String.eqb_spec po ResolvedEnv); [contradiction|reflexivity].
Qed.

Lemma resolvedEnv_entry_is_indirect_witness :
  let sc :=
    ScalerConfig.Build (<["boolValFromEnv" := "boolVal"]> ∅)
      (<["boolVal" := "true"]> ∅) ∅ in
  let params := Params.Build "boolVal" false [AuthParams; ResolvedEnv] "" "" in
  configParamValue sc params = ("true", true)
  ∧ configParamValue (withResolvedEnv sc (<["boolVal" := "true"]> (<["other" := "x"]> ∅))) params
    = configParamValue sc params.
Proof.
  intros sc params.
  assert (Hpre : Forall (unresolved sc params) [AuthParams]).
  { constructor; [|constructor]. intros v [Hv _]. vm_compute in Hv. discriminate. }
  destruct (resolvedEnv_entry_is_indirect sc params [AuthParams] [] eq_refl Hpre)
    as [Hvalue Henv].
  split; [exact Hvalue|].
  apply Henv. vm_compute. reflexivity.
Defined.

(** C10. An entry of the parsing order that names none of the three
    sources is neither skipped nor an error: its [switch] case reads the
    name of the parameter in [TriggerMetadata], so the lookup gives what it
    gives with [triggerMetadata] in place of that entry. *)
Theorem unknown_source_reads_triggerMetadata :
  ∀ (sc : ScalerConfig) (po : ParsingOrder),
    po ≠ TriggerMetadata → po ≠ ResolvedEnv → po ≠ AuthParams →
    ∀ (name : string) (optional : bool) (pre post : list ParsingOrder)
      (default deprecated : string),
      let params := Params.Build name optional (pre ++ po :: post) default deprecated in
      source sc params po = (ScalerConfig.TriggerMetadata sc, name)
      ∧ configParamValue sc params
        = configParamValue sc
            (Params.Build name optional (pre ++ TriggerMetadata :: post)
               default deprecated).
Proof.
  intros sc po H1 H2 H3 name optional pre post default deprecated params.
  split; [apply source_unknown; assumption|].
  unfold configParamValue, params. simpl.
  rewrite (configParamValueFrom_replace sc _ po TriggerMetadata).
  - apply configParamValueFrom_name. reflexivity.
  - rewrite source_unknown by assumption. reflexivity.
Qed.

Lemma unknown_source_reads_triggerMetadata_witness :
  let sc := ScalerConfig.Build (<["stringVal" := "value1"]> ∅) ∅ ∅ in
  configParamValue sc (Params.Build "stringVal" false ["configMap"] "" "")
  = configParamValue sc (Params.Build "stringVal" false [TriggerMetadata] "" "")
  ∧ configParamValue sc (Params.Build "stringVal" false ["configMap"] "" "")
    = ("value1", true).
Proof.
  split; [|reflexivity].
  refine (proj2 (unknown_source_reads_triggerMetadata
    (ScalerConfig.Build (<["stringVal" := "value1"]> ∅) ∅ ∅) "configMap"
    _ _ _ "stringVal" false [] [] "" "")); discriminate.
Defined.

(** ** The policy of [setValue] *)

Lemma IsDeprecated_true params :
  Params.Deprecated params ≠ "" → IsDeprecated params = true.
Proof.
  intros H. unfold IsDeprecated.
  destruct (String.eqb_spec (Params.Deprecated params) ""); [contradiction|reflexivity].
Qed.

Lemma IsDeprecated_false params :
  Params.Deprecated params = "" → IsDeprecated params = false.
Proof. intros H. unfold IsDeprecated. rewrite H. reflexivity. Qed.

Lemma configParamValue_unresolved sc params :
  Forall (unresolved sc params) (Params.ParsingOrder params) →
  configParamValue sc params = ("", false).
Proof. intros H. apply configParamValueFrom_none. auto. Qed.

(** What an empty configuration resolves: nothing. *)
Lemma unresolved_empty params po :
  unresolved (ScalerConfig.Build ∅ ∅ ∅) params po.
Proof.
  intros v [Hv _]. unfold source in Hv.
  destruct (String.eqb po TriggerMetadata); [simpl in Hv; rewrite lookup_empty in Hv; discriminate|].
  destruct (String.eqb po AuthParams); [simpl in Hv; rewrite lookup_empty in Hv; discriminate|].
  destruct (String.eqb po ResolvedEnv); simpl in Hv; rewrite lookup_empty in Hv; discriminate.
Qed.

(** C5. When a value resolves for a parameter marked deprecated, [setValue]
    returns the error whose text is the quoted name between [parameter] and
    [is deprecated], with nothing after it when the marker is the word
    [deprecated] itself and with a colon, a space and the marker after it
    otherwise; the field keeps its value. *)
Theorem deprecated_parameter_supplied :
  ∀ (sc : ScalerConfig) (f : Field) (params : Params) (v : string),
    Params.Deprecated params ≠ "" →
    configParamValue sc params = (v, true) →
    setValue sc f params
    = ReturnErr
        (ErrText
           ("parameter " +:+ Fmt.Quote (Params.Name params) +:+ " is deprecated"
            +:+ (if decide (Params.Deprecated params = "deprecated") then ""
                 else ": " +:+ Params.Deprecated params)))
        (fieldValue f).
Proof.
  intros sc f params v Hdep Hv. unfold setValue. rewrite Hv.
  rewrite (IsDeprecated_true _ Hdep). simpl.
  unfold DeprecatedMessage, deprecatedTag.
  destruct (String.eqb_spec (Params.Deprecated params) "deprecated") as [Heq|Hne];
    destruct (decide (Params.Deprecated params = "deprecated")); try contradiction;
    reflexivity.
Qed.

Lemma deprecated_parameter_supplied_witness :
  let sc := ScalerConfig.Build (<["stringVal" := "value1"]> ∅) ∅ ∅ in
  let f := {| fieldName := "StringVal";
              fieldTag := "name=stringVal, parsingOrder=triggerMetadata, deprecated=deprecated";
              fieldType := TString; fieldExported := true;
              fieldValue := VString "" |} in
  setValue sc f (Params.Build "stringVal" false [TriggerMetadata] "" "deprecated")
  = ReturnErr
      (ErrText ("parameter " +:+ String Fmt.dquote "stringVal"
                +:+ String Fmt.dquote " is deprecated"))
      (VString "")
  ∧ setValue sc f (Params.Build "stringVal" true [TriggerMetadata] "d" "use otherVal")
    = ReturnErr
        (ErrText ("parameter " +:+ String Fmt.dquote "stringVal"
                  +:+ String Fmt.dquote " is deprecated: use otherVal"))
        (VString "").
Proof.
  intros sc f. split.
  - refine (deprecated_parameter_supplied sc f
      (Params.Build "stringVal" false [TriggerMetadata] "" "deprecated")
      "value1" _ _); [discriminate | reflexivity].
  - refine (deprecated_parameter_supplied sc f
      (Params.Build "stringVal" true [TriggerMetadata] "d" "use otherVal")
      "value1" _ _); [discriminate | reflexivity].
Defined.

(** C6. When a parameter is neither optional nor deprecated, has no default
    and no entry of its parsing order resolves, [setValue] returns the error
    whose text is [missing required parameter], the quoted name, [in] and
    the whole parsing order between brackets; the field keeps its value. *)
Theorem missing_required_parameter :
  ∀ (sc : ScalerConfig) (f : Field) (params : Params),
    Params.Optional params = false →
    Params.Deprecated params = "" →
    Params.Default params = "" →
    Forall (unresolved sc params) (Params.ParsingOrder params) →
    setValue sc f params
    = ReturnErr
        (ErrText
           ("missing required parameter " +:+ Fmt.Quote (Params.Name params)
            +:+ " in [" +:+ Strings.Join (Params.ParsingOrder params) " " +:+ "]"))
        (fieldValue f).
Proof.
  intros sc f params Hopt Hdep Hdef Hno. unfold setValue.
  rewrite (configParamValue_unresolved _ _ Hno), (IsDeprecated_false _ Hdep).
  rewrite Hdef, Hopt. reflexivity.
Qed.

Lemma missing_required_parameter_witness :
  let f := {| fieldName := "StringVal";
              fieldTag := "name=stringVal, parsingOrder=triggerMetadata";
              fieldType := TString; fieldExported := true;
              fieldValue := VString "" |} in
  setValue (ScalerConfig.Build ∅ ∅ ∅) f
    (Params.Build "stringVal" false [TriggerMetadata] "" "")
  = ReturnErr
      (ErrText ("missing required parameter " +:+ String Fmt.dquote "stringVal"
                +:+ String Fmt.dquote " in [triggerMetadata]"))
      (VString "").
Proof.
  intros f.
  refine (missing_required_parameter (ScalerConfig.Build ∅ ∅ ∅) f
    (Params.Build "stringVal" false [TriggerMetadata] "" "")
    eq_refl eq_refl eq_refl _).
  constructor; [|constructor]. intros v [Hv _]. vm_compute in Hv. discriminate.
Defined.

(** C2, as amended. When a parameter is marked deprecated, has no default
    and no entry of its parsing order resolves, [setValue] returns nil and
    the field keeps the value it had, whether the parameter is optional or
    not. *)
Theorem deprecated_parameter_absent :
  ∀ (sc : ScalerConfig) (f : Field) (params : Params),
    Params.Deprecated params ≠ "" →
    Params.Default params = "" →
    Forall (unresolved sc params) (Params.ParsingOrder params) →
    setValue sc f params = ReturnNil (fieldValue f).
Proof.
  intros sc f params Hdep Hdef Hno. unfold setValue.
  rewrite (configParamValue_unresolved _ _ Hno), (IsDeprecated_true _ Hdep).
  rewrite Hdef. simpl. rewrite orb_true_r. reflexivity.
Qed.

Lemma deprecated_parameter_absent_witness :
  let f := {| fieldName := "StringVal";
              fieldTag := "name=stringVal, parsingOrder=triggerMetadata, deprecated=deprecated";
              fieldType := TString; fieldExported := true;
              fieldValue := zero TString |} in
  setValue (ScalerConfig.Build ∅ ∅ ∅) f
    (Params.Build "stringVal" false [TriggerMetadata] "" "deprecated")
  = ReturnNil (zero TString).
Proof.
  intros f.
  refine (deprecated_parameter_absent (ScalerConfig.Build ∅ ∅ ∅) f
    (Params.Build "stringVal" false [TriggerMetadata] "" "deprecated") _ eq_refl _).
  - discriminate.
  - constructor; [|constructor]. intros v [Hv _]. vm_compute in Hv. discriminate.
Defined.

(** With a default, a deprecated parameter that no source supplies is not
    left alone: the default is converted into the field. *)
Lemma deprecated_parameter_absent_with_default :
  ¬ (∀ (sc : ScalerConfig) (f : Field) (params : Params),
       Params.Deprecated params ≠ "" →
       Forall (unresolved sc params) (Params.ParsingOrder params) →
       fieldValue f = zero (fieldType f) →
       setValue sc f params = ReturnNil (zero (fieldType f))).
Proof.
  intros Hkept.
  specialize (Hkept (ScalerConfig.Build ∅ ∅ ∅)
    {| fieldName := "StringVal";
       fieldTag := "name=stringVal, parsingOrder=triggerMetadata, deprecated, default=d";
       fieldType := TString; fieldExported := true; fieldValue := VString "" |}
    (Params.Build "stringVal" false [TriggerMetadata] "d" "deprecated")).
  assert (Hset : ReturnNil (VString "d") = ReturnNil (zero TString)).
  { apply Hkept; [discriminate | | reflexivity].
    constructor; [|constructor]. apply unresolved_empty. }
  discriminate Hset.
Qed.

(** ** What the field holds when the conversion fails *)

Section Loops.
Context (setKey setElem : string → outcome).

(** One more clause after clauses that were all inserted. *)
Lemma mapLoop_app pre rest m m' :
  mapLoop setKey setElem pre m = ReturnNil (VMap (Some m')) →
  mapLoop setKey setElem (pre ++ rest) m = mapLoop setKey setElem rest m'.
Proof.
  revert m. induction pre as [|s pre IH]; intros m Hpre.
  - simpl in Hpre. injection Hpre as ->. reflexivity.
  - simpl in Hpre |- *.
    destruct (negb _); [discriminate|].
    destruct (setKey _); [|discriminate..].
    destruct (setElem _); [|discriminate..].
    apply IH, Hpre.
Qed.

(** A failing map loop stops at a clause: the clauses before it were all
    inserted, that clause alone gives the error, and the field holds the
    entries inserted so far. *)
Lemma mapLoop_err split m err field :
  mapLoop setKey setElem split m = ReturnErr err field →
  ∃ pre bad post m',
    split = pre ++ bad :: post
    ∧ mapLoop setKey setElem pre m = ReturnNil (VMap (Some m'))
    ∧ mapLoop setKey setElem [bad] m' = ReturnErr err (VMap (Some m'))
    ∧ field = VMap (Some m').
Proof.
  revert m. induction split as [|s split IH]; intros m Hrun; [discriminate|].
  simpl in Hrun.
  destruct (negb (length (Strings.Split (Strings.TrimSpace s) elemKeyValSeparator) =? 2)%nat)
    eqn:Hlen.
  { injection Hrun as <- <-. exists [], s, split, m.
    simpl. rewrite Hlen. auto. }
  destruct (setKey _) as [k|ek fk|] eqn:Hkey; [| |discriminate].
  2:{ injection Hrun as <- <-. exists [], s, split, m.
      simpl. rewrite Hlen, Hkey. auto. }
  destruct (setElem _) as [v|ev fv|] eqn:Hval; [| |discriminate].
  2:{ injection Hrun as <- <-. exists [], s, split, m.
      simpl. rewrite Hlen, Hkey, Hval. auto. }
  destruct (IH _ Hrun) as (pre & bad & post & m' & -> & Hpre & Hbad & ->).
  exists (s :: pre), bad, post, m'. repeat split; try assumption.
  simpl. rewrite Hlen, Hkey, Hval. exact Hpre.
Qed.

(** A clause that fails alone fails with the same error whatever follows
    it. *)
Lemma mapLoop_stops bad post m err field :
  mapLoop setKey setElem [bad] m = ReturnErr err field →
  mapLoop setKey setElem (bad :: post) m = ReturnErr err field.
Proof.
  simpl. intros Hrun.
  destruct (negb _); [exact Hrun|].
  destruct (setKey _); [|exact Hrun|discriminate].
  destruct (setElem _); [discriminate|exact Hrun|discriminate].
Qed.

End Loops.

Section SliceLoop.
Context (setElem : string → value → outcome) (rw : bool).

(** A slice loop that returns nil has appended one element per piece. *)
Lemma sliceLoop_nil split i elemIfc field field' :
  sliceLoop setElem rw split i elemIfc field = ReturnNil field' →
  ∃ added, field' = VSlice (field ++ added) ∧ length added = length split.
Proof.
  revert i elemIfc field.
  induction split as [|s split IH]; intros i elemIfc field Hrun.
  - injection Hrun as <-. exists []. rewrite app_nil_r. auto.
  - simpl in Hrun. destruct (setElem _ _) as [x| |]; [|discriminate..].
    destruct rw; [|discriminate].
    destruct (IH _ _ _ Hrun) as (added & -> & Hlen).
    exists (x :: added). rewrite <- app_assoc. simpl. auto.
Qed.

(** A loop that has failed is not changed by more pieces after the ones it
    was given. *)
Lemma sliceLoop_stops split more i elemIfc field err field' :
  sliceLoop setElem rw split i elemIfc field = ReturnErr err field' →
  sliceLoop setElem rw (split ++ more) i elemIfc field = ReturnErr err field'.
Proof.
  revert i elemIfc field.
  induction split as [|s split IH]; intros i elemIfc field Hrun; [discriminate|].
  simpl in Hrun |- *.
  destruct (setElem _ _) as [x|ex fx|]; [|exact Hrun|discriminate].
  destruct rw; [|discriminate].
  apply IH, Hrun.
Qed.

(** A failing slice loop stops at a piece: the pieces before it were all
    converted and appended, that piece is the one that gives the error, and
    the field holds the elements it had followed by one element for each
    piece before the failing one. *)
Lemma sliceLoop_err split i elemIfc field err field' :
  sliceLoop setElem rw split i elemIfc field = ReturnErr err field' →
  ∃ pre bad post added,
    split = pre ++ bad :: post
    ∧ sliceLoop setElem rw pre i elemIfc field = ReturnNil field'
    ∧ sliceLoop setElem rw (pre ++ [bad]) i elemIfc field = ReturnErr err field'
    ∧ field' = VSlice (field ++ added)
    ∧ length added = length pre.
Proof.
  revert i elemIfc field.
  induction split as [|s split IH]; intros i elemIfc field Hrun; [discriminate|].
  simpl in Hrun.
  destruct (setElem _ _) as [x|ex fx|] eqn:Hx; [| |discriminate].
  2:{ injection Hrun as <- <-. exists [], s, split, [].
      simpl. rewrite Hx, app_nil_r. auto. }
  destruct rw eqn:Hrw; [|discriminate].
  destruct (IH _ _ _ Hrun)
    as (pre & bad & post & added & -> & Hpre & Hbad & -> & Hlen).
  exists (s :: pre), bad, post, (x :: added).
  split; [reflexivity|]. split; [|split; [|split]].
  - simpl. rewrite Hx. exact Hpre.
  - simpl. rewrite Hx. exact Hbad.
  - rewrite <- app_assoc. reflexivity.
  - simpl. auto.
Qed.

End SliceLoop.

(** The conversion alone, on the field [f]. *)
Lemma setConfigValueHelper_err f valFromConfig cause field' :
  setConfigValueHelper (fieldType f) (fieldExported f) valFromConfig
    (fieldValue f)
  = ReturnErr cause field' →
  heldAfterError valFromConfig f cause field'.
Proof.
  unfold heldAfterError. destruct f as [name tag t rw field]. simpl.
  destruct t as [|defined| | |key elem|elem]; simpl; intros Hrun.
  - destruct rw; discriminate.
  - destruct rw; discriminate.
  - destruct rw; [|injection Hrun as _ <-; reflexivity].
    destruct (Json.Unmarshal _ _); try discriminate.
    injection Hrun as _ <-. reflexivity.
  - destruct rw; [|injection Hrun as _ <-; reflexivity].
    destruct (Json.Unmarshal _ _); try discriminate.
    injection Hrun as _ <-. reflexivity.
  - destruct rw; [|discriminate].
    apply mapLoop_err in Hrun
      as (pre & bad & post & m & Hsplit & Hpre & Hbad & ->).
    exists pre, bad, post, m. auto.
  - apply sliceLoop_err in Hrun
      as (pre & bad & post & added & Hsplit & Hpre & Hbad & -> & Hlen).
    exists pre, bad, post, added. auto.
Qed.

(** The description of the field after a failed conversion leaves no
    choice: the pieces before the failing one are all the pieces the loop
    went through, so two values that both fit it are the same value. *)
Lemma heldAfterError_determined val f cause1 cause2 field1 field2 :
  heldAfterError val f cause1 field1 →
  heldAfterError val f cause2 field2 →
  field1 = field2.
Proof.
  unfold heldAfterError.
  destruct (fieldType f) as [|defined| | |key elem|elem];
    try (intros -> ->; reflexivity).
  - intros (pre1 & bad1 & post1 & m1 & Hsplit1 & Hpre1 & Hbad1 & ->)
           (pre2 & bad2 & post2 & m2 & Hsplit2 & Hpre2 & Hbad2 & ->).
    apply (mapLoop_stops _ _ bad1 post1) in Hbad1.
    apply (mapLoop_stops _ _ bad2 post2) in Hbad2.
    rewrite <- (mapLoop_app _ _ pre1 (bad1 :: post1) [] m1 Hpre1) in Hbad1.
    rewrite <- (mapLoop_app _ _ pre2 (bad2 :: post2) [] m2 Hpre2) in Hbad2.
    rewrite <- Hsplit1 in Hbad1. rewrite <- Hsplit2 in Hbad2.
    rewrite Hbad1 in Hbad2. injection Hbad2 as _ ->. reflexivity.
  - intros (pre1 & bad1 & post1 & added1 & Hsplit1 & _ & Hbad1 & _ & ->)
           (pre2 & bad2 & post2 & added2 & Hsplit2 & _ & Hbad2 & _ & ->).
    apply (sliceLoop_stops _ _ _ post1) in Hbad1.
    apply (sliceLoop_stops _ _ _ post2) in Hbad2.
    rewrite <- app_assoc in Hbad1, Hbad2. simpl in Hbad1, Hbad2.
    rewrite <- Hsplit1 in Hbad1. rewrite <- Hsplit2 in Hbad2.
    rewrite Hbad1 in Hbad2. injection Hbad2 as _ ->. reflexivity.
Qed.

(** C1, as amended. When [setValue] returns an error, either the error was
    raised before the conversion (the parameter is deprecated and supplied,
    or required and missing) and the field, of whatever type, holds the
    value it had before the call; or the error wraps the error of the
    conversion of the raw value, and then a field that is neither a map nor
    a slice holds the value it had, a map field holds a new map with the
    entries of exactly the clauses before the failing one, and a slice field
    holds the elements it had followed by the elements converted from
    exactly the pieces before the failing one. *)
Theorem setValue_error_leaves :
  ∀ (sc : ScalerConfig) (f : Field) (params : Params) (err : error)
    (field' : value),
    setValue sc f params = ReturnErr err field' →
    (raisedBeforeConversion params err ∧ field' = fieldValue f)
    ∨ (∃ cause,
         err = ErrWrap ("unable to set param "
                        +:+ Fmt.Quote (Params.Name params) +:+ " value "
                        +:+ Fmt.Quote (rawValue sc params) +:+ ": ") cause
         ∧ heldAfterError (rawValue sc params) f cause field').
Proof.
  intros sc f params err field' Hrun.
  unfold setValue in Hrun. unfold rawValue, raisedBeforeConversion.
  destruct (configParamValue sc params) as [val found]. simpl.
  destruct (found && IsDeprecated params).
  { injection Hrun as <- <-. left. auto. }
  destruct found; simpl in Hrun.
  - destruct (setConfigValueHelper (fieldType f) (fieldExported f) val (fieldValue f))
      as [v|cause v|] eqn:Hconv; [discriminate| |discriminate].
    injection Hrun as <- <-. right. exists cause.
    split; [reflexivity|]. apply setConfigValueHelper_err, Hconv.
  - destruct (String.eqb (Params.Default params) ""); simpl in Hrun.
    + destruct (Params.Optional params || IsDeprecated params); simpl in Hrun;
        [discriminate|].
      injection Hrun as <- <-. left. auto.
    + destruct (setConfigValueHelper (fieldType f) (fieldExported f)
                  (Params.Default params) (fieldValue f))
        as [v|cause v|] eqn:Hconv; [discriminate| |discriminate].
      injection Hrun as <- <-. right. exists cause.
      split; [reflexivity|]. apply setConfigValueHelper_err, Hconv.
Qed.

Lemma setValue_error_leaves_witness :
  let sc := ScalerConfig.Build
              (<["mapVal" := "a=1,b=2,c"]> (<["sliceVal" := "1,2,x,4"]> ∅))
              ∅ ∅ in
  let m := {| fieldName := "MapVal";
              fieldTag := "name=mapVal, parsingOrder=triggerMetadata";
              fieldType := TMap TString TInt; fieldExported := true;
              fieldValue := VMap None |} in
  let s := {| fieldName := "SliceVal";
              fieldTag := "name=sliceVal, parsingOrder=triggerMetadata";
              fieldType := TSlice TInt; fieldExported := true;
              fieldValue := VSlice [VInt 7] |} in
  (∃ cause,
     heldAfterError "a=1,b=2,c" m cause
       (VMap (Some [(VString "a", VInt 1); (VString "b", VInt 2)])))
  ∧ (∃ cause,
       heldAfterError "1,2,x,4" s cause (VSlice [VInt 7; VInt 1; VInt 2])).
Proof.
  intros sc m s. split.
  - destruct (setValue_error_leaves sc m
      (Params.Build "mapVal" false [TriggerMetadata] "" "")
      (ErrWrap ("unable to set param " +:+ Fmt.Quote "mapVal" +:+ " value "
                +:+ Fmt.Quote "a=1,b=2,c" +:+ ": ")
         (ErrText ("expected format key=value, got " +:+ Fmt.Quote "c")))
      (VMap (Some [(VString "a", VInt 1); (VString "b", VInt 2)]))
      eq_refl) as [[[Hdep|Hmiss] _]|(cause & _ & Hheld)].
    + discriminate Hdep.
    + discriminate Hmiss.
    + exists cause. exact Hheld.
  - destruct (setValue_error_leaves sc s
      (Params.Build "sliceVal" false [TriggerMetadata] "" "")
      (ErrWrap ("unable to set param " +:+ Fmt.Quote "sliceVal" +:+ " value "
                +:+ Fmt.Quote "1,2,x,4" +:+ ": ")
         (ErrWrap "slice element 2: "
            (ErrWrap "unable to unmarshal to field type int: "
               (ErrJSON TInt "x"))))
      (VSlice [VInt 7; VInt 1; VInt 2])
      eq_refl) as [[[Hdep|Hmiss] _]|(cause & _ & Hheld)].
    + discriminate Hdep.
    + discriminate Hmiss.
    + exists cause. exact Hheld.
Defined.

(** A map or a slice whose conversion fails partway is not left as it
    was. *)
Lemma setValue_error_partial_container :
  ¬ (∀ (sc : ScalerConfig) (f : Field) (params : Params) (err : error)
       (field' : value),
       setValue sc f params = ReturnErr err field' → field' = fieldValue f).
Proof.
  intros Hkept.
  pose (sc := ScalerConfig.Build (<["mapVal" := "key1=1,key2"]> ∅) ∅ ∅).
  pose (f := {| fieldName := "MapVal";
                fieldTag := "name=mapVal, parsingOrder=triggerMetadata";
                fieldType := TMap TString TInt; fieldExported := true;
                fieldValue := VMap None |}).
  pose (params := Params.Build "mapVal" false [TriggerMetadata] "" "").
  assert (Hrun : ∃ err, setValue sc f params
                        = ReturnErr err (VMap (Some [(VString "key1", VInt 1)]))).
  { eexists. vm_compute. reflexivity. }
  destruct Hrun as [err Hrun].
  specialize (Hkept sc f params err _ Hrun). discriminate Hkept.
Qed.

(** ** Unknown keys of the tag *)

Lemma tagClause_known tag ts params :
  clauseKey ts ∈ knownKeys → (tagClause tag ts params).2 = None.
Proof.
  intros Hin. unfold tagClause. fold (clauseKey ts). cbv zeta.
  destruct (String.eqb_spec (clauseKey ts) optionalTag); [reflexivity|].
  destruct (String.eqb_spec (clauseKey ts) parsingOrderTag); [reflexivity|].
  destruct (String.eqb_spec (clauseKey ts) nameTag); [reflexivity|].
  destruct (String.eqb_spec (clauseKey ts) deprecatedTag); [reflexivity|].
  destruct (String.eqb_spec (clauseKey ts) defaultTag); [reflexivity|].
  exfalso. unfold knownKeys in Hin.
  repeat (apply elem_of_cons in Hin as [Hin|Hin]; [contradiction|]).
  inversion Hin.
Qed.

Lemma tagClause_unknown tag ts params :
  clauseKey ts ∉ knownKeys →
  tagClause tag ts params
  = (params, Some (ErrText ("unknown tag " +:+ clauseKey ts +:+ ": " +:+ tag))).
Proof.
  intros Hnotin. unfold tagClause. fold (clauseKey ts). cbv zeta.
  assert (Hne : ∀ k, k ∈ knownKeys → String.eqb (clauseKey ts) k = false).
  { intros k Hk. destruct (String.eqb_spec (clauseKey ts) k) as [Heq|]; [|reflexivity].
    exfalso. apply Hnotin. rewrite Heq. exact Hk. }
  rewrite !Hne; [reflexivity|unfold knownKeys; set_solver..].
Qed.

Lemma tagClauses_unknown tag tagSplit params :
  Exists (λ ts, clauseKey ts ∉ knownKeys) tagSplit →
  ∃ ts params',
    ts ∈ tagSplit ∧ (clauseKey ts ∉ knownKeys)
    ∧ tagClauses tag tagSplit params
      = (params', Some (ErrText ("unknown tag " +:+ clauseKey ts +:+ ": " +:+ tag))).
Proof.
  revert params. induction tagSplit as [|ts rest IH]; intros params Hex.
  - inversion Hex.
  - destruct (decide (clauseKey ts ∈ knownKeys)) as [Hknown|Hunknown].
    + assert (Hrest : Exists (λ ts, clauseKey ts ∉ knownKeys) rest).
      { inversion Hex; [contradiction|assumption]. }
      pose proof (tagClause_known tag ts params Hknown) as Hnone.
      simpl. destruct (tagClause tag ts params) as [params1 err1].
      simpl in Hnone. subst err1.
      destruct (IH params1 Hrest) as (ts' & params' & Hin & Hun & Hrun).
      exists ts', params'. split; [right; exact Hin|]. auto.
    + exists ts, params. split; [left|]. split; [exact Hunknown|].
      simpl. rewrite tagClause_unknown by assumption. reflexivity.
Qed.

(** C8. When a clause of the tag has a key that is none of [name],
    [parsingOrder], [optional], [default] and [deprecated], [paramsFromTag]
    returns an error whose text has the key of such a clause after
    [unknown tag] and then the whole tag; for a field that carries this tag
    the loop body then returns that error without calling [setValue], and
    the field keeps its value. *)
Theorem unknown_tag_key_is_an_error :
  ∀ (sc : ScalerConfig) (f : Field),
    Exists (λ ts, clauseKey ts ∉ knownKeys)
      (Strings.Split (fieldTag f) tagSeparator) →
    ∃ (ts : string) (params : Params),
      ts ∈ Strings.Split (fieldTag f) tagSeparator
      ∧ (clauseKey ts ∉ [ "name"; "parsingOrder"; "optional"; "default"; "deprecated" ])
      ∧ paramsFromTag (fieldTag f) (fieldName f)
        = (params,
           Some (ErrText ("unknown tag " +:+ clauseKey ts +:+ ": " +:+ fieldTag f)))
      ∧ (fieldTag f ≠ "" →
         typedConfigField sc f
         = ReturnErr
             (ErrText ("unknown tag " +:+ clauseKey ts +:+ ": " +:+ fieldTag f))
             (fieldValue f)).
Proof.
  intros sc f Hex.
  destruct (tagClauses_unknown (fieldTag f) _ (Params.Build (fieldName f) false [] "" "") Hex)
    as (ts & params & Hin & Hun & Hrun).
  exists ts, params. split; [exact Hin|]. split; [exact Hun|].
  split; [exact Hrun|].
  intros Hne. unfold typedConfigField.
  destruct (String.eqb_spec (fieldTag f) ""); [contradiction|].
  unfold paramsFromTag. rewrite Hrun. reflexivity.
Qed.

Lemma unknown_tag_key_is_an_error_witness :
  let sc := ScalerConfig.Build (<["intVal" := "1"]> ∅) ∅ ∅ in
  let f := {| fieldName := "IntVal";
              fieldTag := "name=intVal, parsingorder=triggerMetadata, optional";
              fieldType := TInt; fieldExported := true; fieldValue := VInt 0 |} in
  (∃ (ts : string) (params : Params),
     ts ∈ Strings.Split (fieldTag f) tagSeparator
     ∧ (clauseKey ts ∉ [ "name"; "parsingOrder"; "optional"; "default"; "deprecated" ])
     ∧ paramsFromTag (fieldTag f) (fieldName f)
       = (params,
          Some (ErrText ("unknown tag " +:+ clauseKey ts +:+ ": " +:+ fieldTag f)))
     ∧ (fieldTag f ≠ "" →
        typedConfigField sc f
        = ReturnErr
            (ErrText ("unknown tag " +:+ clauseKey ts +:+ ": " +:+ fieldTag f))
            (fieldValue f)))
  ∧ typedConfigField sc f
    = ReturnErr
        (ErrText
           "unknown tag parsingorder: name=intVal, parsingorder=triggerMetadata, optional")
        (VInt 0).
Proof.
  intros sc f. split; [|reflexivity].
  apply (unknown_tag_key_is_an_error sc f).
  vm_compute Strings.Split. right. left. vm_compute.
  intros Hin. repeat (apply elem_of_cons in Hin as [Hin|Hin]; [discriminate|]).
  inversion Hin.
Defined.

(** ** The loop of [TypedConfig] *)

Lemma typedConfigLoop_all sc fields errors done :
  Forall (λ f, typedConfigField sc f ≠ Panics) fields →
  typedConfigLoop sc fields errors done
  = Returns
      (NewAggregate (errors ++ omap (λ f, outcomeError (typedConfigField sc f)) fields))
      (done ++ map (λ f, outcomeField f (typedConfigField sc f)) fields).
Proof.
  intros Hall. revert errors done.
  induction Hall as [|f fields Hf _ IH]; intros errors done.
  - simpl. rewrite !app_nil_r. reflexivity.
  - simpl. destruct (typedConfigField sc f) as [v|err v|]; [| |contradiction].
    + rewrite IH. simpl. rewrite <- app_assoc. reflexivity.
    + rewrite IH. simpl. rewrite <- !app_assoc. reflexivity.
Qed.

(** A field on which the loop body panics makes the call panic. *)
Lemma typedConfigLoop_panics sc fields errors done :
  Exists (λ f, typedConfigField sc f = Panics) fields →
  typedConfigLoop sc fields errors done = Panicked.
Proof.
  intros Hex. revert errors done.
  induction fields as [|f fields IH]; intros errors done; [inversion Hex|].
  simpl. destruct (typedConfigField sc f) as [v|err v|] eqn:Hf; [| |reflexivity].
  - apply IH. inversion Hex; [congruence|assumption].
  - apply IH. inversion Hex; [congruence|assumption].
Qed.

(** The guard of [TypedConfig]: an argument that is not a pointer gives an
    error of its own, before any field is read. *)
Lemma TypedConfig_not_pointer sc :
  TypedConfig sc NotPointer
  = Returns (Some (ErrText "typedConfig must be a pointer")) [].
Proof. reflexivity. Qed.

Lemma NewAggregate_nil errs : NewAggregate errs = None ↔ errs = [].
Proof. destruct errs; simpl; split; congruence. Qed.

Lemma NewAggregate_Errors errs agg :
  NewAggregate errs = Some agg → Errors agg = errs.
Proof. destruct errs; simpl; [discriminate|]. intros [= <-]. reflexivity. Qed.

(** C7. On a pointer to a struct none of whose fields makes the call panic,
    [TypedConfig] passes every field through the loop body, whatever the
    fields before it returned: each field ends as the loop body alone leaves
    it. It returns nil exactly when the loop body returned no error for any
    field; otherwise it returns one aggregate whose errors are the errors of
    the fields, every one of them, in the order of the fields. *)
Theorem TypedConfig_collects_every_error :
  ∀ (sc : ScalerConfig) (fields : list Field),
    Forall (λ f, typedConfigField sc f ≠ Panics) fields →
    ∃ (err : option error),
      TypedConfig sc (PointerToStruct fields)
      = Returns err (map (λ f, outcomeField f (typedConfigField sc f)) fields)
      ∧ (err = None ↔
         Forall (λ f, outcomeError (typedConfigField sc f) = None) fields)
      ∧ (∀ agg, err = Some agg →
           agg = Aggregate (omap (λ f, outcomeError (typedConfigField sc f)) fields)
           ∧ Errors agg = omap (λ f, outcomeError (typedConfigField sc f)) fields)
      ∧ (∀ f e, f ∈ fields → outcomeError (typedConfigField sc f) = Some e →
           ∃ agg, err = Some agg ∧ e ∈ Errors agg).
Proof.
  intros sc fields Hall.
  set (errs := omap (λ f, outcomeError (typedConfigField sc f)) fields).
  exists (NewAggregate errs). split; [|split; [|split]].
  - unfold TypedConfig. rewrite typedConfigLoop_all by assumption. reflexivity.
  - rewrite NewAggregate_nil. unfold errs. clear Hall.
    induction fields as [|f fields IH]; simpl.
    + split; auto.
    + destruct (outcomeError (typedConfigField sc f)) eqn:Hf; simpl.
      * split; [discriminate|]. intros H. inversion H; congruence.
      * rewrite IH. split; [intros; constructor; assumption|].
        intros H. inversion H; assumption.
  - intros agg Hagg. split; [|apply NewAggregate_Errors; exact Hagg].
    destruct errs; simpl in Hagg; [discriminate|]. congruence.
  - intros f e Hin Hrun.
    assert (He : e ∈ errs).
    { unfold errs. apply list_elem_of_omap. exists f. auto. }
    destruct errs as [|e0 errs0] eqn:Herrs; [inversion He|].
    exists (Aggregate (e0 :: errs0)). split; [reflexivity|]. exact He.
Qed.

Lemma TypedConfig_collects_every_error_witness :
  let sc := ScalerConfig.Build (<["stringVal" := "value1"]> (<["intVal" := "x"]> ∅)) ∅ ∅ in
  let field name tag t :=
    {| fieldName := name; fieldTag := tag; fieldType := t;
       fieldExported := true; fieldValue := zero t |} in
  let fields :=
    [ field "Missing" "name=missingVal, parsingOrder=triggerMetadata" TString;
      field "Untagged" "" TBool;
      field "IntVal" "name=intVal, parsingOrder=triggerMetadata" TInt;
      field "StringVal" "name=stringVal, parsingOrder=triggerMetadata" TString;
      field "Unknown" "name=stringVal, order=triggerMetadata" TString ] in
  TypedConfig sc (PointerToStruct fields)
  = Returns
      (Some (Aggregate
         [ ErrText ("missing required parameter " +:+ Fmt.Quote "missingVal"
                    +:+ " in [triggerMetadata]");
           ErrWrap ("unable to set param " +:+ Fmt.Quote "intVal" +:+ " value "
                    +:+ Fmt.Quote "x" +:+ ": ")
             (ErrWrap "unable to unmarshal to field type int: " (ErrJSON TInt "x"));
           ErrText "unknown tag order: name=stringVal, order=triggerMetadata" ]))
      [ field "Missing" "name=missingVal, parsingOrder=triggerMetadata" TString;
        field "Untagged" "" TBool;
        field "IntVal" "name=intVal, parsingOrder=triggerMetadata" TInt;
        withValue
          (field "StringVal" "name=stringVal, parsingOrder=triggerMetadata" TString)
          (VString "value1");
        field "Unknown" "name=stringVal, order=triggerMetadata" TString ].
Proof.
  intros sc field fields.
  assert (Hall : Forall (λ f, typedConfigField sc f ≠ Panics) fields).
  { repeat constructor; vm_compute; discriminate. }
  destruct (TypedConfig_collects_every_error sc fields Hall)
    as (err & Hrun & _ & Hagg & _).
  rewrite Hrun. f_equal.
  destruct err as [agg|].
  - destruct (Hagg agg eq_refl) as [-> _]. reflexivity.
  - exfalso. vm_compute in Hrun. discriminate Hrun.
Defined.

(** ** Strings: appending, reversing, splitting and trimming *)

Lemma string_app_cons a s t : String a s +:+ t = String a (s +:+ t).
Proof. reflexivity. Qed.

Lemma string_app_nil_r s : s +:+ "" = s.
Proof. induction s as [|a s IH]; [reflexivity|]. rewrite string_app_cons, IH. reflexivity. Qed.

Lemma string_app_assoc s t u : (s +:+ t) +:+ u = s +:+ t +:+ u.
Proof.
  induction s as [|a s IH]; [reflexivity|].
  rewrite !string_app_cons, IH. reflexivity.
Qed.

Lemma string_rev_app_spec s acc : String.rev_app s acc = String.rev s +:+ acc.
Proof.
  revert acc. induction s as [|a s IH]; intros acc; [reflexivity|].
  unfold String.rev. simpl. rewrite (IH (String a acc)), (IH (String a "")).
  rewrite string_app_assoc. reflexivity.
Qed.

Lemma string_rev_cons a s : String.rev (String a s) = String.rev s +:+ String a "".
Proof. unfold String.rev at 1. simpl. apply string_rev_app_spec. Qed.

Lemma string_rev_app s t : String.rev (s +:+ t) = String.rev t +:+ String.rev s.
Proof.
  induction s as [|a s IH].
  - rewrite string_app_nil_r. reflexivity.
  - rewrite string_app_cons, !string_rev_cons, IH, string_app_assoc. reflexivity.
Qed.

Lemma string_rev_involutive s : String.rev (String.rev s) = s.
Proof.
  induction s as [|a s IH]; [reflexivity|].
  rewrite string_rev_cons, string_rev_app, IH. reflexivity.
Qed.

Lemma string_rev_nil s : String.rev s = "" → s = "".
Proof.
  intros H. rewrite <- (string_rev_involutive s), H. reflexivity.
Qed.

(** *** Splitting *)

Lemma allBytes_app p s t : allBytes p (s +:+ t) = allBytes p s && allBytes p t.
Proof.
  induction s as [|a s IH]; [reflexivity|].
  rewrite string_app_cons. simpl. rewrite IH, andb_assoc. reflexivity.
Qed.

Lemma allBytes_rev p s : allBytes p (String.rev s) = allBytes p s.
Proof.
  induction s as [|a s IH]; [reflexivity|].
  rewrite string_rev_cons, allBytes_app, IH. simpl.
  rewrite andb_true_r, andb_comm. reflexivity.
Qed.

Lemma allBytes_impl (p q : ascii → bool) s :
  (∀ c, p c = true → q c = true) → allBytes p s = true → allBytes q s = true.
Proof.
  intros Hpq. induction s as [|a s IH]; [reflexivity|]. simpl.
  intros [Ha Hs]%andb_true_iff. rewrite (Hpq _ Ha), (IH Hs). reflexivity.
Qed.

Lemma Split_lacks sep s : lacks sep s = true → Strings.Split s sep = [s].
Proof.
  unfold lacks. induction s as [|a s IH]; [reflexivity|]. simpl.
  destruct (Ascii.eqb a sep); [discriminate|]. simpl. intros H.
  rewrite (IH H). reflexivity.
Qed.

Lemma Split_app sep s t :
  lacks sep s = true →
  Strings.Split (s +:+ String sep t) sep = s :: Strings.Split t sep.
Proof.
  unfold lacks. induction s as [|a s IH].
  - intros _. change ("" +:+ String sep t) with (String sep t). simpl.
    rewrite Ascii.eqb_refl. reflexivity.
  - simpl allBytes. destruct (Ascii.eqb a sep) eqn:Ha; [discriminate|]. simpl negb.
    rewrite andb_true_l. intros H.
    rewrite string_app_cons. simpl Strings.Split. rewrite Ha, (IH H). reflexivity.
Qed.

Lemma Split_Join sep pieces :
  pieces ≠ [] → Forall (λ p, lacks sep p = true) pieces →
  Strings.Split (Strings.Join pieces (String sep "")) sep = pieces.
Proof.
  intros Hne Hall. induction Hall as [|p pieces Hp Hall IH]; [contradiction|].
  destruct pieces as [|q pieces].
  - simpl. apply Split_lacks, Hp.
  - change (Strings.Join (p :: q :: pieces) (String sep ""))
      with (p +:+ String sep "" +:+ Strings.Join (q :: pieces) (String sep "")).
    change (String sep "" +:+ Strings.Join (q :: pieces) (String sep ""))
      with (String sep (Strings.Join (q :: pieces) (String sep ""))).
    rewrite Split_app by assumption. rewrite IH by discriminate. reflexivity.
Qed.

(** *** Trimming at the front *)

Section TrimFront.
Context (p1 : ascii → bool) (p2 : ascii → ascii → bool)
        (p3 : ascii → ascii → ascii → bool).
(** The bytes of the runes of two and three bytes are not in ASCII. *)
Hypothesis p2_high : ∀ a b, p2 a b = true → isAscii a = false ∧ isAscii b = false.
Hypothesis p3_high :
  ∀ a b c, p3 a b c = true →
           isAscii a = false ∧ isAscii b = false ∧ isAscii c = false.

Lemma trimFront_blank w s :
  allBytes p1 w = true →
  Strings.trimFront p1 p2 p3 (w +:+ s) = Strings.trimFront p1 p2 p3 s.
Proof.
  induction w as [|a w IH]; [reflexivity|]. simpl allBytes.
  destruct (p1 a) eqn:Ha; [|discriminate]. rewrite andb_true_l. intros Hw.
  rewrite string_app_cons. simpl. rewrite Ha. apply IH, Hw.
Qed.

Lemma trimFront_length s :
  (String.length (Strings.trimFront p1 p2 p3 s) ≤ String.length s)%nat.
Proof.
  remember (String.length s) as n eqn:Hn.
  revert s Hn. induction n as [n IH] using lt_wf_ind. intros s ->.
  assert (IH' : ∀ r, (String.length r < String.length s)%nat →
                     (String.length (Strings.trimFront p1 p2 p3 r)
                      ≤ String.length r)%nat).
  { intros r Hr. exact (IH _ Hr r eq_refl). }
  clear IH.
  destruct s as [|a [|b [|c r3]]]; simpl.
  - lia.
  - destruct (p1 a); simpl; lia.
  - destruct (p1 a).
    + specialize (IH' (String b "") ltac:(simpl; lia)). simpl in IH' |- *. lia.
    + destruct (p2 a b); simpl; lia.
  - destruct (p1 a).
    + specialize (IH' (String b (String c r3)) ltac:(simpl; lia)).
      simpl in IH' |- *. lia.
    + destruct (p2 a b).
      * specialize (IH' (String c r3) ltac:(simpl; lia)).
        simpl in IH' |- *. lia.
      * destruct (p3 a b c); [|simpl; lia].
        specialize (IH' r3 ltac:(simpl; lia)). simpl in IH' |- *. lia.
Qed.

(** A byte of ASCII that is not white space stops the trimming. *)
Lemma trimFront_stop c t :
  isAscii c = true → p1 c = false →
  Strings.trimFront p1 p2 p3 (String c t) = String c t.
Proof.
  intros Hc Hp. simpl. rewrite Hp.
  destruct t as [|b [|d r3]]; [reflexivity| |].
  - destruct (p2 c b) eqn:H2; [|reflexivity].
    apply p2_high in H2 as [H2 _]. congruence.
  - destruct (p2 c b) eqn:H2.
    { apply p2_high in H2 as [H2 _]. congruence. }
    destruct (p3 c b d) eqn:H3; [|reflexivity].
    apply p3_high in H3 as [H3 _]. congruence.
Qed.

(** What follows a string that does not start with white space does not
    matter, as long as it starts with a byte of ASCII. *)
Lemma trimFront_fixed s t :
  Strings.trimFront p1 p2 p3 s = s → s ≠ "" → startsAscii t = true →
  Strings.trimFront p1 p2 p3 (s +:+ t) = s +:+ t.
Proof.
  intros Hfix Hne Ht.
  destruct s as [|a r1]; [contradiction|]. clear Hne.
  assert (Hshort : ∀ r, (String.length r < String.length (String a r1))%nat →
                        Strings.trimFront p1 p2 p3 r ≠ String a r1).
  { intros r Hr Heq. pose proof (trimFront_length r) as Hlen.
    rewrite Heq in Hlen. lia. }
  simpl in Hfix.
  destruct (p1 a) eqn:H1.
  { exfalso. apply (Hshort r1); [simpl; lia|exact Hfix]. }
  destruct r1 as [|b r2].
  - change (String a "" +:+ t) with (String a t).
    simpl. rewrite H1.
    destruct t as [|x [|y t'']]; [reflexivity| |].
    + simpl in Ht. destruct (p2 a x) eqn:H2; [|reflexivity].
      apply p2_high in H2 as [_ H2]. congruence.
    + simpl in Ht. destruct (p2 a x) eqn:H2.
      { apply p2_high in H2 as [_ H2]. congruence. }
      destruct (p3 a x y) eqn:H3; [|reflexivity].
      apply p3_high in H3 as (_ & H3 & _). congruence.
  - destruct (p2 a b) eqn:H2.
    { exfalso. apply (Hshort r2); [simpl; lia|exact Hfix]. }
    destruct r2 as [|c r3].
    + change (String a (String b "") +:+ t) with (String a (String b t)).
      simpl. rewrite H1, H2.
      destruct t as [|x t']; [reflexivity|].
      simpl in Ht. destruct (p3 a b x) eqn:H3; [|reflexivity].
      apply p3_high in H3 as (_ & _ & H3). congruence.
    + change (String a (String b (String c r3)) +:+ t)
        with (String a (String b (String c (r3 +:+ t)))).
      simpl. rewrite H1, H2.
      destruct (p3 a b c) eqn:H3; [|reflexivity].
      exfalso. apply (Hshort r3); [simpl; lia|exact Hfix].
Qed.

End TrimFront.

(** *** [TrimLeft], [TrimRight] and [TrimSpace] *)

Lemma byte_is_eq n a : Strings.byte_is n a = true → N_of_ascii a = n.
Proof. unfold Strings.byte_is. apply N.eqb_eq. Qed.

(** Take apart what a test on bytes says. *)
Ltac known_bytes :=
  repeat match goal with
         | H : _ ∨ _ |- _ => destruct H
         | H : _ ∧ _ |- _ => destruct H
         | H : Strings.byte_is _ _ = true |- _ => apply byte_is_eq in H
         end.

Lemma space1_ascii a : Strings.space1 a = true → isAscii a = true.
Proof.
  unfold Strings.space1, isAscii. rewrite !orb_true_iff.
  intros H. apply N.ltb_lt. known_bytes; lia.
Qed.

Lemma space2_high a b :
  Strings.space2 a b = true → isAscii a = false ∧ isAscii b = false.
Proof.
  unfold Strings.space2, isAscii. rewrite andb_true_iff, orb_true_iff.
  intros H. split; apply N.ltb_ge; known_bytes; lia.
Qed.

Lemma space3_high a b c :
  Strings.space3 a b c = true →
  isAscii a = false ∧ isAscii b = false ∧ isAscii c = false.
Proof.
  unfold Strings.space3, isAscii.
  rewrite !orb_true_iff, !andb_true_iff, !orb_true_iff, !andb_true_iff.
  rewrite !N.leb_le.
  intros H. repeat split; apply N.ltb_ge; known_bytes; lia.
Qed.

Lemma startsAscii_blank w t :
  isBlank w = true → startsAscii t = true → startsAscii (w +:+ t) = true.
Proof.
  destruct w as [|a w]; [auto|]. unfold isBlank. simpl.
  intros [Ha _]%andb_true_iff _. apply space1_ascii, Ha.
Qed.

Lemma isBlank_lacks sep w :
  Strings.space1 sep = false → isBlank w = true → lacks sep w = true.
Proof.
  intros Hsep. apply allBytes_impl. intros c Hc.
  destruct (Ascii.eqb_spec c sep) as [->|]; [congruence|reflexivity].
Qed.

Lemma TrimLeft_blank w s :
  isBlank w = true → Strings.TrimLeft (w +:+ s) = Strings.TrimLeft s.
Proof. apply trimFront_blank. Qed.

Lemma TrimLeft_stop c t :
  isAscii c = true → Strings.space1 c = false →
  Strings.TrimLeft (String c t) = String c t.
Proof. apply trimFront_stop; [apply space2_high|apply space3_high]. Qed.

Lemma TrimLeft_fixed s t :
  Strings.TrimLeft s = s → s ≠ "" → startsAscii t = true →
  Strings.TrimLeft (s +:+ t) = s +:+ t.
Proof. apply trimFront_fixed; [apply space2_high|apply space3_high]. Qed.

Lemma TrimRight_blank s w :
  isBlank w = true → Strings.TrimRight (s +:+ w) = Strings.TrimRight s.
Proof.
  intros Hw. unfold Strings.TrimRight.
  rewrite string_rev_app, trimFront_blank; [reflexivity|].
  unfold isBlank in Hw. rewrite allBytes_rev. exact Hw.
Qed.

Lemma TrimRight_stop t c :
  isAscii c = true → Strings.space1 c = false →
  Strings.TrimRight (t +:+ String c "") = t +:+ String c "".
Proof.
  intros Hc Hsp. unfold Strings.TrimRight.
  rewrite string_rev_app.
  change (String.rev (String c "") +:+ String.rev t) with (String c (String.rev t)).
  rewrite trimFront_stop; try assumption.
  - rewrite string_rev_cons, string_rev_involutive. reflexivity.
  - intros a b H. apply space2_high in H. tauto.
  - intros a b d H. apply space3_high in H. tauto.
Qed.

Lemma TrimRight_fixed t s :
  Strings.TrimRight s = s → s ≠ "" → startsAscii (String.rev t) = true →
  Strings.TrimRight (t +:+ s) = t +:+ s.
Proof.
  intros Hfix Hne Ht. unfold Strings.TrimRight in *.
  rewrite string_rev_app, trimFront_fixed.
  - rewrite string_rev_app, !string_rev_involutive. reflexivity.
  - intros a b H. apply space2_high in H. tauto.
  - intros a b d H. apply space3_high in H. tauto.
  - rewrite <- Hfix at 2. rewrite string_rev_involutive. reflexivity.
  - intros H. apply Hne, string_rev_nil, H.
  - exact Ht.
Qed.

Lemma startsAscii_rev_blank w t :
  isBlank w = true → startsAscii (String.rev t) = true →
  startsAscii (String.rev (t +:+ w)) = true.
Proof.
  intros Hw Ht. rewrite string_rev_app. apply startsAscii_blank; [|exact Ht].
  unfold isBlank. rewrite allBytes_rev. exact Hw.
Qed.

(** White space around a trimmed text is trimmed away. *)
Lemma TrimSpace_padded p :
  isBlank (padLeft p) = true → isBlank (padRight p) = true →
  trimmed (padText p) →
  Strings.TrimSpace (padString p) = padText p.
Proof.
  destruct p as [l core r]. unfold padString. simpl.
  intros Hl Hr [Hleft Hright]. unfold Strings.TrimSpace.
  rewrite TrimLeft_blank by assumption.
  destruct core as [|a core].
  - change ("" +:+ r) with r.
    rewrite <- (string_app_nil_r r), TrimLeft_blank by assumption. reflexivity.
  - rewrite TrimLeft_fixed; [|assumption|discriminate|].
    + rewrite TrimRight_blank by assumption. exact Hright.
    + rewrite <- (string_app_nil_r r). apply startsAscii_blank; [assumption|reflexivity].
Qed.

Lemma TrimSpace_trimmed s : trimmed s → Strings.TrimSpace s = s.
Proof.
  intros [Hleft Hright]. unfold Strings.TrimSpace. rewrite Hleft. exact Hright.
Qed.

(** ** Maps and slices from their raw values *)

Lemma setConfigValueHelper_slice elem rw valFromConfig field :
  setConfigValueHelper (TSlice elem) rw valFromConfig field
  = sliceLoop (setConfigValueHelper elem true) rw
      (Strings.Split valFromConfig elemSeparator) 0 (zero elem) (sliceElems field).
Proof. reflexivity. Qed.

Lemma setConfigValueHelper_map key elem rw valFromConfig field :
  setConfigValueHelper (TMap key elem) rw valFromConfig field
  = if rw then
      mapLoop (λ k, setConfigValueHelper key true k (zero key))
        (λ v, setConfigValueHelper elem true v (zero elem))
        (Strings.Split valFromConfig elemSeparator) []
    else Panics.
Proof. reflexivity. Qed.

(** The slice loop sees its pieces through [TrimSpace] only. *)
Lemma sliceLoop_trim setElem rw split split' i elemIfc field :
  map Strings.TrimSpace split = map Strings.TrimSpace split' →
  sliceLoop setElem rw split i elemIfc field
  = sliceLoop setElem rw split' i elemIfc field.
Proof.
  revert split' i elemIfc field.
  induction split as [|s split IH]; intros [|s' split'] i elemIfc field Heq;
    try discriminate; [reflexivity|].
  injection Heq as Hs Hrest. simpl. rewrite Hs.
  destruct (setElem _ _); try reflexivity.
  destruct rw; [|reflexivity]. apply IH, Hrest.
Qed.

(** A clause that splits in two is seen through its two trimmed parts. *)
Lemma mapLoop_parts setKey setElem s s' a b a' b' rest rest' m :
  Strings.Split (Strings.TrimSpace s) elemKeyValSeparator = [a; b] →
  Strings.Split (Strings.TrimSpace s') elemKeyValSeparator = [a'; b'] →
  Strings.TrimSpace a = Strings.TrimSpace a' →
  Strings.TrimSpace b = Strings.TrimSpace b' →
  (∀ m', mapLoop setKey setElem rest m' = mapLoop setKey setElem rest' m') →
  mapLoop setKey setElem (s :: rest) m = mapLoop setKey setElem (s' :: rest') m.
Proof.
  intros Hs Hs' Ha Hb Hrest. simpl. rewrite Hs, Hs'. simpl. rewrite Ha, Hb.
  destruct (setKey _); try reflexivity.
  destruct (setElem _); try reflexivity.
  apply Hrest.
Qed.

Lemma wellPadded_lacks sep p :
  Strings.space1 sep = false → isBlank (padLeft p) = true →
  isBlank (padRight p) = true → lacks sep (padText p) = true →
  lacks sep (padString p) = true.
Proof.
  intros Hsep Hl Hr Ht. unfold padString, lacks. rewrite !allBytes_app.
  fold (lacks sep (padLeft p)) (lacks sep (padText p)) (lacks sep (padRight p)).
  rewrite (isBlank_lacks sep (padLeft p)), (isBlank_lacks sep (padRight p)), Ht
    by assumption.
  reflexivity.
Qed.

(** The key side of a clause, trimmed from the left. *)
Lemma TrimLeft_key kl key kr after :
  isBlank kl = true → isBlank kr = true → Strings.TrimLeft key = key →
  ∃ K, Strings.TrimLeft
         (kl +:+ key +:+ kr +:+ String elemKeyValSeparator after)
       = K +:+ String elemKeyValSeparator after
       ∧ ((K = "" ∧ key = "") ∨ (K = key +:+ kr ∧ key ≠ "")).
Proof.
  intros Hkl Hkr Hkey. rewrite TrimLeft_blank by assumption.
  destruct key as [|c key].
  - exists "". split; [|auto].
    change ("" +:+ kr +:+ String elemKeyValSeparator after)
      with (kr +:+ String elemKeyValSeparator after).
    rewrite TrimLeft_blank by assumption. apply TrimLeft_stop; reflexivity.
  - exists (String c key +:+ kr). split; [|right; split; [reflexivity|discriminate]].
    rewrite TrimLeft_fixed; [apply eq_sym, string_app_assoc|assumption|discriminate|].
    apply startsAscii_blank; [assumption|reflexivity].
Qed.

(** The element side of a clause, trimmed from the right. *)
Lemma TrimRight_elem before vl val vr :
  isBlank vl = true → isBlank vr = true → Strings.TrimRight val = val →
  ∃ V, Strings.TrimRight
         (before +:+ String elemKeyValSeparator (vl +:+ val +:+ vr))
       = before +:+ String elemKeyValSeparator V
       ∧ ((V = "" ∧ val = "") ∨ (V = vl +:+ val ∧ val ≠ "")).
Proof.
  intros Hvl Hvr Hval.
  assert (Hshape : ∀ x, before +:+ String elemKeyValSeparator x
                        = (before +:+ String elemKeyValSeparator "") +:+ x).
  { intros x. rewrite string_app_assoc. reflexivity. }
  rewrite (Hshape (vl +:+ val +:+ vr)).
  rewrite <- !string_app_assoc, TrimRight_blank by assumption.
  destruct val as [|c val].
  - exists "". split; [|auto].
    rewrite string_app_nil_r, TrimRight_blank by assumption.
    apply TrimRight_stop; reflexivity.
  - exists (vl +:+ String c val). split; [|right; split; [reflexivity|discriminate]].
    rewrite TrimRight_fixed; [|assumption|discriminate|].
    + rewrite (Hshape (vl +:+ String c val)), string_app_assoc. reflexivity.
    + apply startsAscii_rev_blank; [assumption|].
      rewrite string_rev_app. reflexivity.
Qed.

(** A padded clause splits in two parts that trim to the key and to the
    element. *)
Lemma paddedClause_parts kv :
  wellPaddedClause kv →
  ∃ a b,
    Strings.Split (Strings.TrimSpace (paddedClause kv)) elemKeyValSeparator = [a; b]
    ∧ Strings.TrimSpace a = padText kv.1
    ∧ Strings.TrimSpace b = padText kv.2.
Proof.
  destruct kv as [[kl key kr] [vl val vr]]. unfold wellPaddedClause, wellPadded.
  simpl.
  intros ((Hkl & Hkr & [Hkey1 Hkey2] & _) & (Hvl & Hvr & [Hval1 Hval2] & _)
          & Hkeq & Hveq).
  unfold paddedClause, padString, Strings.TrimSpace. simpl.
  change (String elemKeyValSeparator "" +:+ vl +:+ val +:+ vr)
    with (String elemKeyValSeparator (vl +:+ val +:+ vr)).
  rewrite !string_app_assoc.
  destruct (TrimLeft_key kl key kr (vl +:+ val +:+ vr) Hkl Hkr Hkey1)
    as (K & -> & HK).
  destruct (TrimRight_elem K vl val vr Hvl Hvr Hval2) as (V & -> & HV).
  assert (HKeq : lacks elemKeyValSeparator K = true).
  { destruct HK as [[-> _]|[-> _]]; [reflexivity|].
    unfold lacks. rewrite allBytes_app.
    fold (lacks elemKeyValSeparator key) (lacks elemKeyValSeparator kr).
    rewrite Hkeq, isBlank_lacks by (assumption || reflexivity). reflexivity. }
  assert (HVeq : lacks elemKeyValSeparator V = true).
  { destruct HV as [[-> _]|[-> _]]; [reflexivity|].
    unfold lacks. rewrite allBytes_app.
    fold (lacks elemKeyValSeparator vl) (lacks elemKeyValSeparator val).
    rewrite Hveq, isBlank_lacks by (assumption || reflexivity). reflexivity. }
  exists K, V. rewrite Split_app, Split_lacks by assumption.
  split; [reflexivity|]. split.
  - destruct HK as [[-> ->]|[-> _]]; [reflexivity|].
    apply (TrimSpace_padded (Pad "" key kr)); simpl; auto. split; assumption.
  - destruct HV as [[-> ->]|[-> _]]; [reflexivity|].
    rewrite <- (string_app_nil_r val) at 1.
    apply (TrimSpace_padded (Pad vl val "")); simpl; auto. split; assumption.
Qed.

Lemma plainClause_parts kv :
  wellPaddedClause kv →
  ∃ a b,
    Strings.Split (Strings.TrimSpace (plainClause kv)) elemKeyValSeparator = [a; b]
    ∧ Strings.TrimSpace a = padText kv.1
    ∧ Strings.TrimSpace b = padText kv.2.
Proof.
  destruct kv as [[kl key kr] [vl val vr]]. unfold wellPaddedClause, wellPadded.
  simpl.
  intros ((_ & _ & Hkey & Hkc) & (_ & _ & Hval & Hvc) & Hke & Hve).
  assert (Hplain : plainClause (Pad kl key kr, Pad vl val vr)
                   = paddedClause (Pad "" key "", Pad "" val "")).
  { unfold plainClause, paddedClause, padString. simpl.
    change ("" +:+ key +:+ "") with (key +:+ "").
    change ("" +:+ val +:+ "") with (val +:+ "").
    rewrite !string_app_nil_r. reflexivity. }
  rewrite Hplain.
  apply (paddedClause_parts (Pad "" key "", Pad "" val "")).
  unfold wellPaddedClause, wellPadded. simpl. auto 10.
Qed.

Lemma mapLoop_padded setKey setElem entries m :
  Forall wellPaddedClause entries →
  mapLoop setKey setElem (map paddedClause entries) m
  = mapLoop setKey setElem (map plainClause entries) m.
Proof.
  intros Hall. revert m. induction Hall as [|kv entries Hkv _ IH]; intros m.
  - reflexivity.
  - destruct (paddedClause_parts kv Hkv) as (a & b & Hsplit & Ha & Hb).
    destruct (plainClause_parts kv Hkv) as (a' & b' & Hsplit' & Ha' & Hb').
    simpl map.
    apply (mapLoop_parts _ _ _ _ a b a' b'); try assumption; congruence.
Qed.

(** C9. The raw text [key1=1,key2=2] gives a map field from strings to
    integers exactly the two entries [key1] to 1 and [key2] to 2, whatever
    the field held; the raw text [1,2,3] gives an integer slice field the
    elements 1, 2, 3 in this order after the elements it held, so exactly
    these three for a field that was empty. White space around each
    element, key and value is trimmed before the element is converted: a
    raw text whose elements, keys and values stand between blanks is
    converted as the raw text without the blanks, for slices and maps of
    every element type. *)
Theorem map_and_slice_from_raw_text :
  (∀ cur : value,
     setConfigValueHelper (TMap TString TInt) true "key1=1,key2=2" cur
     = ReturnNil (VMap (Some [(VString "key1", VInt 1); (VString "key2", VInt 2)])))
  ∧ (∀ prior : list value,
       setConfigValueHelper (TSlice TInt) true "1,2,3" (VSlice prior)
       = ReturnNil (VSlice (prior ++ [VInt 1; VInt 2; VInt 3])))
  ∧ setConfigValueHelper (TSlice TInt) true "1,2,3" (zero (TSlice TInt))
    = ReturnNil (VSlice [VInt 1; VInt 2; VInt 3])
  ∧ (∀ (elem : rtype) (rw : bool) (cur : value) (items : list padded),
       items ≠ [] → Forall wellPadded items →
       setConfigValueHelper (TSlice elem) rw
         (Strings.Join (map padString items) ",") cur
       = setConfigValueHelper (TSlice elem) rw
           (Strings.Join (map padText items) ",") cur)
  ∧ (∀ (key elem : rtype) (rw : bool) (cur : value)
       (entries : list (padded * padded)),
       entries ≠ [] →
       Forall wellPaddedClause entries →
       setConfigValueHelper (TMap key elem) rw
         (Strings.Join (map paddedClause entries) ",") cur
       = setConfigValueHelper (TMap key elem) rw
           (Strings.Join (map plainClause entries) ",") cur).
Proof.
  split; [|split; [|split; [|split]]].
  - intros cur. reflexivity.
  - intros prior. rewrite setConfigValueHelper_slice. simpl.
    rewrite <- !app_assoc. reflexivity.
  - reflexivity.
  - intros elem rw cur items Hne Hall.
    rewrite !setConfigValueHelper_slice.
    change "," with (String elemSeparator "").
    rewrite !Split_Join.
    + apply sliceLoop_trim. rewrite !map_map. apply map_ext_Forall.
      eapply Forall_impl; [exact Hall|].
      intros p (Hl & Hr & Ht & _). simpl.
      rewrite TrimSpace_padded, TrimSpace_trimmed by assumption. reflexivity.
    + destruct items; [contradiction|discriminate].
    + apply Forall_map. eapply Forall_impl; [exact Hall|].
      intros p (_ & _ & _ & Hc). exact Hc.
    + destruct items; [contradiction|discriminate].
    + apply Forall_map. eapply Forall_impl; [exact Hall|].
      intros p (Hl & Hr & _ & Hc). simpl.
      apply wellPadded_lacks; auto.
  - intros key elem rw cur entries Hne Hall.
    rewrite !setConfigValueHelper_map. destruct rw; [|reflexivity].
    change "," with (String elemSeparator "").
    rewrite !Split_Join.
    + apply mapLoop_padded, Hall.
    + destruct entries; [contradiction|discriminate].
    + apply Forall_map. eapply Forall_impl; [exact Hall|].
      intros [k v] ((_ & _ & _ & Hkc) & (_ & _ & _ & Hvc) & _).
      simpl in Hkc, Hvc |- *.
      unfold plainClause, lacks. simpl. rewrite !allBytes_app.
      fold (lacks elemSeparator (padText k)) (lacks elemSeparator (padText v)).
      rewrite Hkc, Hvc. reflexivity.
    + destruct entries; [contradiction|discriminate].
    + apply Forall_map. eapply Forall_impl; [exact Hall|].
      intros [k v] ((Hkl & Hkr & _ & Hkc) & (Hvl & Hvr & _ & Hvc) & _).
      simpl in Hkl, Hkr, Hkc, Hvl, Hvr, Hvc |- *.
      unfold paddedClause, lacks. simpl. rewrite !allBytes_app.
      fold (lacks elemSeparator (padString k)) (lacks elemSeparator (padString v)).
      rewrite !wellPadded_lacks by auto. reflexivity.
Qed.

Lemma map_and_slice_from_raw_text_witness :
  setConfigValueHelper (TSlice TInt) true "  1, 2 ,3 " (VSlice [])
  = ReturnNil (VSlice [VInt 1; VInt 2; VInt 3])
  ∧ setConfigValueHelper (TMap TString TInt) true " key1 = 1 ,key2=  2" (VMap None)
    = ReturnNil (VMap (Some [(VString "key1", VInt 1); (VString "key2", VInt 2)])).
Proof.
  destruct map_and_slice_from_raw_text
    as (Hmap & _ & Hslice & Hitems & Hentries).
  split.
  - refine (eq_trans
      (Hitems TInt true (VSlice [])
         [Pad "  " "1" ""; Pad " " "2" " "; Pad "" "3" " "] _ _) Hslice).
    + discriminate.
    + repeat constructor.
  - refine (eq_trans
      (Hentries TString TInt true (VMap None)
         [(Pad " " "key1" " ", Pad " " "1" " "); (Pad "" "key2" "", Pad "  " "2" "")]
         _ _) (Hmap (VMap None))).
    + discriminate.
    + repeat constructor.
Defined.

(** ** The tests of the package

    The tests of the package, run on the embedding. Their fields of type
    [float64] are left out: floating point numbers are not part of the
    field types above. *)

Example TestBasicTypedConfig :
  TypedConfig
    (ScalerConfig.Build
       (<["stringVal" := "value1"]> (<["intVal" := "1"]>
          (<["boolValFromEnv" := "boolVal"]> ∅)))
       (<["boolVal" := "true"]> ∅)
       (<["auth" := "authValue"]> ∅))
    (PointerToStruct
       [ testField "StringVal" "name=stringVal, parsingOrder=triggerMetadata" TString;
         testField "IntVal" "name=intVal,    parsingOrder=triggerMetadata" TInt;
         testField "BoolVal" "name=boolVal,   parsingOrder=resolvedEnv" TBool;
         testField "AuthVal" "name=auth,      parsingOrder=authParams" TString ])
  = Returns None
      [ withValue (testField "StringVal" "name=stringVal, parsingOrder=triggerMetadata" TString)
          (VString "value1");
        withValue (testField "IntVal" "name=intVal,    parsingOrder=triggerMetadata" TInt)
          (VInt 1);
        withValue (testField "BoolVal" "name=boolVal,   parsingOrder=resolvedEnv" TBool)
          (VBool true);
        withValue (testField "AuthVal" "name=auth,      parsingOrder=authParams" TString)
          (VString "authValue") ].
Proof. vm_compute. reflexivity. Qed.

Example TestParsingOrder :
  TypedConfig
    (ScalerConfig.Build
       (<["stringVal" := "value1"]> (<["intVal" := "1"]>
          (<["intValFromEnv" := "intVal"]> ∅)))
       (<["stringVal" := "value2"]> (<["intVal" := "2"]> ∅))
       ∅)
    (PointerToStruct
       [ testField "StringVal" "name=stringVal, parsingOrder=resolvedEnv;triggerMetadata" TString;
         testField "IntVal" "name=intVal,    parsingOrder=triggerMetadata;resolvedEnv" TInt ])
  = Returns None
      [ withValue
          (testField "StringVal" "name=stringVal, parsingOrder=resolvedEnv;triggerMetadata" TString)
          (VString "value1");
        withValue
          (testField "IntVal" "name=intVal,    parsingOrder=triggerMetadata;resolvedEnv" TInt)
          (VInt 1) ].
Proof. vm_compute. reflexivity. Qed.

Example TestOptional :
  TypedConfig (ScalerConfig.Build (<["stringVal" := "value1"]> ∅) ∅ ∅)
    (PointerToStruct
       [ testField "StringVal" "name=stringVal, parsingOrder=triggerMetadata" TString;
         testField "IntVal" "name=intVal,    parsingOrder=triggerMetadata, optional=true" TInt ])
  = Returns None
      [ withValue (testField "StringVal" "name=stringVal, parsingOrder=triggerMetadata" TString)
          (VString "value1");
        testField "IntVal" "name=intVal,    parsingOrder=triggerMetadata, optional=true" TInt ].
Proof. vm_compute. reflexivity. Qed.

Example TestMissing :
  TypedConfig (ScalerConfig.Build ∅ ∅ ∅)
    (PointerToStruct
       [ testField "StringVal" "name=stringVal, parsingOrder=triggerMetadata" TString ])
  = Returns
      (Some (Aggregate
         [ ErrText ("missing required parameter " +:+ String Fmt.dquote "stringVal"
                    +:+ String Fmt.dquote " in [triggerMetadata]") ]))
      [ testField "StringVal" "name=stringVal, parsingOrder=triggerMetadata" TString ].
Proof. vm_compute. reflexivity. Qed.

Example TestDeprecated :
  let f := testField "StringVal"
             "name=stringVal, parsingOrder=triggerMetadata, deprecated=deprecated"
             TString in
  TypedConfig (ScalerConfig.Build (<["stringVal" := "value1"]> ∅) ∅ ∅)
    (PointerToStruct [f])
  = Returns
      (Some (Aggregate
         [ ErrText ("parameter " +:+ String Fmt.dquote "stringVal"
                    +:+ String Fmt.dquote " is deprecated") ]))
      [f]
  ∧ TypedConfig (ScalerConfig.Build ∅ ∅ ∅) (PointerToStruct [f])
    = Returns None [f].
Proof. split; vm_compute; reflexivity. Qed.

Example TestDefaultValue :
  TypedConfig (ScalerConfig.Build (<["stringVal" := "value1"]> ∅) ∅ ∅)
    (PointerToStruct
       [ testField "BoolVal" "name=boolVal,    parsingOrder=triggerMetadata, optional, default=true" TBool;
         testField "StringVal" "name=stringVal,  parsingOrder=triggerMetadata, optional, default=d" TString;
         testField "StringVal2" "name=stringVal2, parsingOrder=triggerMetadata, optional, default=d" TString ])
  = Returns None
      [ withValue
          (testField "BoolVal" "name=boolVal,    parsingOrder=triggerMetadata, optional, default=true" TBool)
          (VBool true);
        withValue
          (testField "StringVal" "name=stringVal,  parsingOrder=triggerMetadata, optional, default=d" TString)
          (VString "value1");
        withValue
          (testField "StringVal2" "name=stringVal2, parsingOrder=triggerMetadata, optional, default=d" TString)
          (VString "d") ].
Proof. vm_compute. reflexivity. Qed.

Example TestMap :
  let f := testField "MapVal" "name=mapVal, parsingOrder=triggerMetadata"
             (TMap TString TInt) in
  ∃ m,
    TypedConfig (ScalerConfig.Build (<["mapVal" := "key1=1,key2=2"]> ∅) ∅ ∅)
      (PointerToStruct [f])
    = Returns None [withValue f (VMap (Some m))]
    ∧ length m = 2%nat
    ∧ mapIndex m (VString "key1") = Some (VInt 1)
    ∧ mapIndex m (VString "key2") = Some (VInt 2).
Proof. eexists. vm_compute. repeat split. Qed.

Example TestSlice :
  let f := testField "SliceVal" "name=sliceVal, parsingOrder=triggerMetadata"
             (TSlice TInt) in
  TypedConfig (ScalerConfig.Build (<["sliceVal" := "1,2,3"]> ∅) ∅ ∅)
    (PointerToStruct [f])
  = Returns None [withValue f (VSlice [VInt 1; VInt 2; VInt 3])].
Proof. vm_compute. reflexivity. Qed.

(** * Further properties *)

(** ** The tag, read clause by clause *)

Lemma Split_length s sep : (1 ≤ length (Strings.Split s sep))%nat.
Proof.
  induction s as [|c s IH]; simpl; [lia|].
  destruct (Ascii.eqb c sep); simpl; [lia|].
  destruct (Strings.Split s sep); simpl; lia.
Qed.

Lemma tagClauses_known tag tagSplit params :
  Forall (λ ts, clauseKey ts ∈ knownKeys) tagSplit →
  (tagClauses tag tagSplit params).2 = None.
Proof.
  intros Hall. revert params.
  induction Hall as [|ts rest Hts _ IH]; intros params; [reflexivity|].
  simpl. pose proof (tagClause_known tag ts params Hts) as Hnone.
  destruct (tagClause tag ts params) as [params1 err1]. simpl in Hnone.
  subst err1. apply IH.
Qed.

(** X1. [paramsFromTag] returns an error exactly when a clause of the tag has
    a key it does not know. *)
Theorem paramsFromTag_fails_iff_unknown_key :
  ∀ (tag fieldName : string),
    (paramsFromTag tag fieldName).2 ≠ None ↔
    Exists (λ ts, clauseKey ts ∉ knownKeys) (Strings.Split tag tagSeparator).
Proof.
  intros tag fieldName. split.
  - intros Herr. apply not_Forall_Exists; [intros ts; apply _|].
    intros Hall. apply Herr. unfold paramsFromTag.
    apply tagClauses_known.
    eapply Forall_impl; [exact Hall|]. intros ts Hts.
    destruct (decide (clauseKey ts ∈ knownKeys)); [assumption|contradiction].
  - intros Hex.
    destruct (tagClauses_unknown tag _ (Params.Build fieldName false [] "" "") Hex)
      as (ts & params & _ & _ & Hrun).
    unfold paramsFromTag. rewrite Hrun. discriminate.
Qed.

Lemma last_cons_default {A} (x : A) (l : list A) (d : A) :
  List.last (x :: l) d = List.last l x.
Proof.
  revert x d. induction l as [|y l IH]; intros x d; [reflexivity|].
  change (List.last (x :: y :: l) d) with (List.last (y :: l) d).
  rewrite (IH y d), (IH y x). reflexivity.
Qed.

#[local] Arguments List.last : simpl never.

(** The loop of [paramsFromTag] from any parameters, for clauses whose keys
    are all known. *)
Lemma tagClauses_reading tag tagSplit params :
  Forall (λ ts, clauseKey ts ∈ knownKeys) tagSplit →
  tagClauses tag tagSplit params
  = (Params.Build
       (List.last
          (map clauseArg (List.filter (λ ts, keyIs nameTag ts && hasArg ts) tagSplit))
          (Params.Name params))
       (List.last
          (map (λ ts, if hasArg ts then String.eqb (clauseArg ts) "true" else true)
             (List.filter (keyIs optionalTag) tagSplit))
          (Params.Optional params))
       (Params.ParsingOrder params ++ tagOrder tagSplit)
       (List.last
          (map clauseArg (List.filter (λ ts, keyIs defaultTag ts && hasArg ts) tagSplit))
          (Params.Default params))
       (List.last
          (map (λ ts, if hasArg ts then clauseArg ts else deprecatedTag)
             (List.filter (keyIs deprecatedTag) tagSplit))
          (Params.Deprecated params)),
     None).
Proof.
  intros Hall. revert params.
  induction Hall as [|ts rest Hts _ IH]; intros params.
  - simpl. unfold tagOrder. simpl. rewrite app_nil_r. destruct params; reflexivity.
  - pose proof (Split_length ts tagKeySeparator) as Hlen.
    assert (Hbare : Nat.eqb (length (Strings.Split ts tagKeySeparator)) 1
                    = negb (hasArg ts)).
    { unfold hasArg.
      destruct (Nat.ltb_spec 1 (length (Strings.Split ts tagKeySeparator)));
        destruct (Nat.eqb_spec (length (Strings.Split ts tagKeySeparator)) 1);
        simpl; try reflexivity; lia. }
    simpl tagClauses. unfold tagClause. cbv zeta.
    fold (clauseKey ts) (clauseArg ts) (hasArg ts). rewrite Hbare.
    unfold tagOrder. simpl List.filter. unfold keyIs.
    unfold knownKeys in Hts.
    repeat (apply elem_of_cons in Hts as [Hts|Hts];
            [rewrite Hts; destruct (hasArg ts) eqn:Harg; simpl; rewrite IH; simpl;
             rewrite ?last_cons_default, <- ?app_assoc, ?Harg; reflexivity|]).
    inversion Hts.
Qed.

(** X2. For a tag whose clauses all have known keys, [paramsFromTag] returns
    no error and the parameters a reading of the clauses gives: for the
    name, the default, the marker and the flag the last clause with that key
    decides (a [name] or [default] clause without argument changes nothing;
    a bare [deprecated] gives the word itself and a bare [optional] gives
    true), the name being the field name when no clause sets it; the
    parsing order is made of the tokens of all [parsingOrder] clauses, in
    order. *)
Theorem paramsFromTag_reading :
  ∀ (tag fieldName : string),
    Forall (λ ts, clauseKey ts ∈ knownKeys) (Strings.Split tag tagSeparator) →
    paramsFromTag tag fieldName
    = (Params.Build
         (tagName fieldName (Strings.Split tag tagSeparator))
         (tagOptional (Strings.Split tag tagSeparator))
         (tagOrder (Strings.Split tag tagSeparator))
         (tagDefault (Strings.Split tag tagSeparator))
         (tagDeprecated (Strings.Split tag tagSeparator)),
       None).
Proof.
  intros tag fieldName Hall. unfold paramsFromTag.
  rewrite tagClauses_reading by assumption. reflexivity.
Qed.

Lemma paramsFromTag_reading_witness :
  paramsFromTag
    "parsingOrder=authParams, default=a, optional=false, parsingOrder= resolvedEnv ;triggerMetadata, default = b, deprecated=, optional"
    "Field"
  = (Params.Build "Field" true [AuthParams; ResolvedEnv; TriggerMetadata] "b" "", None).
Proof.
  refine (paramsFromTag_reading _ "Field" _).
  vm_compute Strings.Split.
  repeat constructor; vm_compute; set_solver.
Defined.

(** ** More on the lookup *)

Lemma configParamValueFrom_drop sc params pre po post :
  unresolved sc params po →
  configParamValueFrom sc params (pre ++ po :: post)
  = configParamValueFrom sc params (pre ++ post).
Proof.
  intros Hno. induction pre as [|q pre IH].
  - apply configParamValueFrom_miss, Hno.
  - simpl. rewrite IH. reflexivity.
Qed.

(** X3. A value [configParamValue] finds is never the empty string and is
    never made up: it is what [TriggerMetadata] or [AuthParams] holds at the
    name of the parameter, or what [ResolvedEnv] holds at the key that
    [TriggerMetadata] gives for the name followed by [FromEnv]. *)
Theorem configParamValue_value_origin :
  ∀ (sc : ScalerConfig) (params : Params) (v : string),
    configParamValue sc params = (v, true) →
    v ≠ ""
    ∧ (ScalerConfig.TriggerMetadata sc !! Params.Name params = Some v
       ∨ ScalerConfig.AuthParams sc !! Params.Name params = Some v
       ∨ ScalerConfig.ResolvedEnv sc
           !! default "" (ScalerConfig.TriggerMetadata sc
                            !! (Params.Name params +:+ "FromEnv"))
         = Some v).
Proof.
  intros sc params v Hrun.
  apply configParamValueFrom_found in Hrun
    as (pre & po & post & _ & _ & Hlook & Hne).
  split; [exact Hne|].
  unfold source in Hlook.
  destruct (String.eqb po TriggerMetadata); [left; exact Hlook|].
  destruct (String.eqb po AuthParams); [right; left; exact Hlook|].
  destruct (String.eqb po ResolvedEnv); [right; right; exact Hlook|].
  left. exact Hlook.
Qed.

Lemma configParamValue_value_origin_witness :
  let sc :=
    ScalerConfig.Build (<["hostFromEnv" := "HOST"]> (<["host" := ""]> ∅))
      (<["HOST" := "example.org"]> ∅) ∅ in
  "example.org" ≠ ""
  ∧ (ScalerConfig.TriggerMetadata sc !! "host" = Some "example.org"
     ∨ ScalerConfig.AuthParams sc !! "host" = Some "example.org"
     ∨ ScalerConfig.ResolvedEnv sc
         !! default "" (ScalerConfig.TriggerMetadata sc !! ("host" +:+ "FromEnv"))
       = Some "example.org").
Proof.
  intros sc.
  refine (configParamValue_value_origin sc
    (Params.Build "host" false [TriggerMetadata; ResolvedEnv] "" "")
    "example.org" _).
  vm_compute. reflexivity.
Defined.

(** X4. An entry that comes a second time in the parsing order changes
    nothing: the lookup gives the same without the later occurrence. *)
Theorem configParamValue_repeated_entry :
  ∀ (sc : ScalerConfig) (name : string) (optional : bool)
    (pre mid post : list ParsingOrder) (po : ParsingOrder)
    (default deprecated : string),
    configParamValue sc
      (Params.Build name optional (pre ++ po :: mid ++ po :: post)
         default deprecated)
    = configParamValue sc
        (Params.Build name optional (pre ++ po :: mid ++ post)
           default deprecated).
Proof.
  intros sc name optional pre mid post po default deprecated.
  unfold configParamValue. simpl.
  set (p := Params.Build name optional (pre ++ po :: mid ++ po :: post)
              default deprecated).
  rewrite (configParamValueFrom_name sc
             (Params.Build name optional (pre ++ po :: mid ++ post)
                default deprecated) p) by reflexivity.
  clearbody p.
  induction pre as [|q pre IH].
  - simpl app.
    destruct (resolves_dec sc p po) as [[v Hv]|Hno].
    + rewrite !(configParamValueFrom_hit sc p po _ v Hv). reflexivity.
    + rewrite !(configParamValueFrom_miss sc p po) by assumption.
      apply configParamValueFrom_drop, Hno.
  - simpl. rewrite IH. reflexivity.
Qed.

(** X5. Entries added at the end of the parsing order are fallbacks only:
    a value that is found is still the value found with more entries after
    the order. *)
Theorem configParamValue_more_fallbacks :
  ∀ (sc : ScalerConfig) (name : string) (optional : bool)
    (order more : list ParsingOrder) (default deprecated v : string),
    configParamValue sc (Params.Build name optional order default deprecated)
    = (v, true) →
    configParamValue sc
      (Params.Build name optional (order ++ more) default deprecated)
    = (v, true).
Proof.
  intros sc name optional order more default deprecated v Hrun.
  unfold configParamValue in *. simpl in *.
  apply configParamValueFrom_found in Hrun
    as (pre & po & post & -> & Hpre & Hlook & Hne).
  apply configParamValueFrom_found.
  exists pre, po, (post ++ more). rewrite <- app_assoc. simpl.
  split; [reflexivity|]. split.
  - eapply Forall_impl; [exact Hpre|]. intros q Hq w Hw. apply (Hq w).
    unfold resolves in *. erewrite source_name; [exact Hw|reflexivity].
  - unfold resolves. erewrite source_name; [split; eassumption|reflexivity].
Qed.

Lemma configParamValue_more_fallbacks_witness :
  configParamValue
    (ScalerConfig.Build (<["topic" := "a"]> ∅) ∅ (<["topic" := "b"]> ∅))
    (Params.Build "topic" false ([TriggerMetadata] ++ [AuthParams; ResolvedEnv]) "" "")
  = ("a", true).
Proof.
  refine (configParamValue_more_fallbacks _ "topic" false [TriggerMetadata]
            [AuthParams; ResolvedEnv] "" "" "a" _).
  vm_compute. reflexivity.
Defined.

(** X6. A map the parsing order does not name is not read: when the order
    has no [resolvedEnv] entry the lookup is the same for every map of
    resolved environment values, and when it has no [authParams] entry it is
    the same for every map of auth parameters. *)
Theorem configParamValue_reads_named_sources :
  ∀ (sc : ScalerConfig) (params : Params) (env' auth' : gmap string string),
    (ResolvedEnv ∈ Params.ParsingOrder params → env' = ScalerConfig.ResolvedEnv sc) →
    (AuthParams ∈ Params.ParsingOrder params → auth' = ScalerConfig.AuthParams sc) →
    configParamValue
      (ScalerConfig.Build (ScalerConfig.TriggerMetadata sc) env' auth') params
    = configParamValue sc params.
Proof.
  intros sc params env' auth' Henv Hauth. unfold configParamValue.
  apply configParamValueFrom_same_source. intros po Hin.
  apply list_elem_of_In in Hin. unfold source. simpl.
  destruct (String.eqb_spec po TriggerMetadata); [reflexivity|].
  destruct (String.eqb_spec po AuthParams) as [->|].
  { simpl. rewrite (Hauth Hin). reflexivity. }
  destruct (String.eqb_spec po ResolvedEnv) as [->|]; [|reflexivity].
  simpl. rewrite (Henv Hin). reflexivity.
Qed.

Lemma configParamValue_reads_named_sources_witness :
  let sc := ScalerConfig.Build (<["topic" := "a"]> ∅)
              (<["topic" := "b"]> ∅) (<["topic" := "c"]> ∅) in
  configParamValue
    (ScalerConfig.Build (ScalerConfig.TriggerMetadata sc) ∅ (<["topic" := "c"]> ∅))
    (Params.Build "topic" false [AuthParams; TriggerMetadata] "" "")
  = configParamValue sc
      (Params.Build "topic" false [AuthParams; TriggerMetadata] "" "").
Proof.
  intros sc.
  refine (configParamValue_reads_named_sources sc
    (Params.Build "topic" false [AuthParams; TriggerMetadata] "" "")
    ∅ (<["topic" := "c"]> ∅) _ _).
  - simpl. intros Hin.
    repeat (apply elem_of_cons in Hin as [Hin|Hin]; [discriminate|]).
    inversion Hin.
  - intros _. reflexivity.
Defined.

(** ** More on the policy of [setValue] *)

(** X7. A default stands in for a supplied value: when no entry resolves and
    the default is not empty, [setValue] does what it does for a parameter
    without default and deprecation marker whose name [TriggerMetadata]
    maps to that default. This holds for a deprecated parameter too: the
    default is converted into its field. *)
Theorem default_stands_for_supplied_value :
  ∀ (sc : ScalerConfig) (f : Field) (params : Params),
    Forall (unresolved sc params) (Params.ParsingOrder params) →
    Params.Default params ≠ "" →
    setValue sc f params
    = setValue
        (ScalerConfig.Build
           (<[Params.Name params := Params.Default params]> ∅) ∅ ∅)
        f
        (Params.Build (Params.Name params) (Params.Optional params)
           [TriggerMetadata] "" "").
Proof.
  intros sc f params Hno Hdef.
  unfold setValue at 2. unfold configParamValue. simpl.
  rewrite lookup_insert_eq.
  unfold setValue. rewrite (configParamValue_unresolved _ _ Hno).
  destruct (String.eqb_spec (Params.Default params) ""); [contradiction|].
  simpl. reflexivity.
Qed.

Lemma default_stands_for_supplied_value_witness :
  let f := {| fieldName := "Port"; fieldTag := "name=port, default=80, deprecated";
              fieldType := TInt; fieldExported := true; fieldValue := VInt 0 |} in
  setValue (ScalerConfig.Build ∅ ∅ ∅) f
    (Params.Build "port" false [TriggerMetadata] "80" "deprecated")
  = ReturnNil (VInt 80).
Proof.
  intros f.
  refine (eq_trans
    (default_stands_for_supplied_value (ScalerConfig.Build ∅ ∅ ∅) f
       (Params.Build "port" false [TriggerMetadata] "80" "deprecated") _ _)
    _).
  - constructor; [|constructor]. intros v [Hv _]. vm_compute in Hv. discriminate.
  - discriminate.
  - vm_compute. reflexivity.
Defined.

(** X8. With no value in any source and no default, [setValue] never
    touches the field and never panics; it returns nil exactly when the
    parameter is optional or deprecated. *)
Theorem absent_parameter_leaves_field :
  ∀ (sc : ScalerConfig) (f : Field) (params : Params),
    Forall (unresolved sc params) (Params.ParsingOrder params) →
    Params.Default params = "" →
    (setValue sc f params = ReturnNil (fieldValue f)
     ∨ ∃ err, setValue sc f params = ReturnErr err (fieldValue f))
    ∧ (setValue sc f params = ReturnNil (fieldValue f) ↔
       Params.Optional params = true ∨ Params.Deprecated params ≠ "").
Proof.
  intros sc f params Hno Hdef. unfold setValue.
  rewrite (configParamValue_unresolved _ _ Hno), Hdef. simpl.
  unfold IsDeprecated.
  destruct (Params.Optional params);
    destruct (String.eqb_spec (Params.Deprecated params) ""); simpl.
  - split; [left; reflexivity|]. split; auto.
  - split; [left; reflexivity|]. split; auto.
  - split; [right; eexists; reflexivity|].
    split; [discriminate|]. intros [?|?]; [discriminate|contradiction].
  - split; [left; reflexivity|]. split; auto.
Qed.

Lemma absent_parameter_leaves_field_witness :
  let f := {| fieldName := "IntVal";
              fieldTag := "name=intVal,    parsingOrder=triggerMetadata, optional=true";
              fieldType := TInt; fieldExported := false; fieldValue := VInt 5 |} in
  setValue (ScalerConfig.Build (<["stringVal" := "value1"]> ∅) ∅ ∅) f
    (Params.Build "intVal" true [TriggerMetadata] "" "")
  = ReturnNil (VInt 5).
Proof.
  intros f.
  refine (proj2 (proj2 (absent_parameter_leaves_field
    (ScalerConfig.Build (<["stringVal" := "value1"]> ∅) ∅ ∅) f
    (Params.Build "intVal" true [TriggerMetadata] "" "") _ eq_refl))
    (or_introl eq_refl)).
  constructor; [|constructor]. intros v [Hv _]. vm_compute in Hv. discriminate.
Defined.

Lemma configParamValue_nonempty sc params v :
  configParamValue sc params = (v, true) → v ≠ "".
Proof.
  intros Hrun.
  apply configParamValueFrom_found in Hrun as (_ & _ & _ & _ & _ & _ & Hne).
  exact Hne.
Qed.

(** X9. [setValue] never converts the empty string: a raw value is an entry
    of a source that is not empty or a default that is not empty. So a
    string field on which [setValue] returns nil holds the value it had or a
    string that is not empty; no configuration clears it. *)
Theorem setValue_never_clears_string :
  ∀ (sc : ScalerConfig) (f : Field) (params : Params) (field' : value),
    fieldType f = TString →
    setValue sc f params = ReturnNil field' →
    field' = fieldValue f
    ∨ (rawValue sc params ≠ "" ∧ field' = VString (rawValue sc params)).
Proof.
  intros sc f params field' Hty Hrun.
  unfold setValue in Hrun. unfold rawValue.
  destruct (configParamValue sc params) as [val found] eqn:Hlook. simpl.
  destruct (found && IsDeprecated params); [discriminate|].
  destruct found; simpl in Hrun.
  - right. split; [eapply configParamValue_nonempty; exact Hlook|].
    rewrite Hty in Hrun. simpl in Hrun.
    destruct (fieldExported f); [|discriminate]. congruence.
  - destruct (String.eqb_spec (Params.Default params) "") as [Hdef|Hdef];
      simpl in Hrun.
    + destruct (Params.Optional params || IsDeprecated params); simpl in Hrun;
        [|discriminate].
      left. congruence.
    + right. split; [exact Hdef|].
      rewrite Hty in Hrun. simpl in Hrun.
      destruct (fieldExported f); [|discriminate]. congruence.
Qed.

Lemma setValue_never_clears_string_witness :
  let sc := ScalerConfig.Build (<["stringVal" := ""]> ∅) ∅ ∅ in
  let f := {| fieldName := "StringVal";
              fieldTag := "name=stringVal, parsingOrder=triggerMetadata, optional";
              fieldType := TString; fieldExported := true;
              fieldValue := VString "kept" |} in
  let params := Params.Build "stringVal" true [TriggerMetadata] "" "" in
  VString "kept" = fieldValue f
  ∨ (rawValue sc params ≠ "" ∧ VString "kept" = VString (rawValue sc params)).
Proof.
  intros sc f params.
  refine (setValue_never_clears_string sc f params (VString "kept") eq_refl _).
  vm_compute. reflexivity.
Defined.

(** ** More on the conversion *)



Lemma sliceLoop_strings split i elemIfc field :
  sliceLoop (setConfigValueHelper TString true) true split i elemIfc field
  = ReturnNil
      (VSlice (field ++ map (λ s, VString (Strings.TrimSpace s)) split)).
Proof.
  revert i elemIfc field.
  induction split as [|s split IH]; intros i elemIfc field.
  - simpl. rewrite app_nil_r. reflexivity.
  - simpl. rewrite IH, <- app_assoc. reflexivity.
Qed.

(** X11. A slice of strings never fails to convert: every raw value gives
    the field, after the elements it held, the pieces between the commas,
    each trimmed, one element per piece (an empty piece gives an empty
    string). *)
Theorem slice_of_strings_from_raw_value :
  ∀ (valFromConfig : string) (prior : list value),
    setConfigValueHelper (TSlice TString) true valFromConfig (VSlice prior)
    = ReturnNil
        (VSlice
           (prior ++ map (λ s, VString (Strings.TrimSpace s))
                       (Strings.Split valFromConfig elemSeparator))).
Proof.
  intros valFromConfig prior. rewrite setConfigValueHelper_slice.
  apply sliceLoop_strings.
Qed.

(** *** The type of the value a field holds *)

Lemma hasType_zero t : hasType t (zero t).
Proof.
  destruct t; simpl; eauto.
  - exists 0. split; [reflexivity|]. unfold Json.minInt, Json.maxInt. lia.
Qed.

Lemma Unmarshal_hasType t input v :
  Json.Unmarshal t input = Json.Decoded v → hasType t v.
Proof.
  unfold Json.Unmarshal.
  destruct (Json.isLiteral "null" (Json.skipSpace input)); [discriminate|].
  destruct t; try discriminate.
  - destruct (Json.integer (Json.skipSpace input)) as [[n after]|]; [|discriminate].
    destruct (Json.atEnd after); simpl; [|discriminate].
    destruct (Z.leb_spec Json.minInt n); simpl; [|discriminate].
    destruct (Z.leb_spec n Json.maxInt); [|discriminate].
    intros [= <-]. exists n. auto.
  - destruct (Json.isLiteral "true" _); [intros [= <-]; simpl; eauto|].
    destruct (Json.isLiteral "false" _); [intros [= <-]; simpl; eauto|].
    discriminate.
Qed.

Lemma setMapIndex_Forall (P : value * value → Prop) m k v :
  Forall P m → P (k, v) → (∀ k' v', P (k', v') → P (k', v)) →
  Forall P (setMapIndex m k v).
Proof.
  intros Hm Hkv Hrepl. induction Hm as [|[k0 v0] m H0 Hm IH]; simpl.
  - constructor; [exact Hkv|constructor].
  - destruct (keyEq k0 k).
    + constructor; [eapply Hrepl; exact H0|exact Hm].
    + constructor; assumption.
Qed.

Section TypedLoops.
Context (key elem : rtype).

Lemma mapLoop_hasType (setKey setElem : string → outcome) split m r :
  (∀ s k, setKey s = ReturnNil k → hasType key k) →
  (∀ s v, setElem s = ReturnNil v → hasType elem v) →
  Forall (λ kv : value * value, hasType key kv.1 ∧ hasType elem kv.2) m →
  (mapLoop setKey setElem split m = ReturnNil r
   ∨ ∃ err, mapLoop setKey setElem split m = ReturnErr err r) →
  hasType (TMap key elem) r.
Proof.
  intros Hkey Helem. revert m.
  induction split as [|s split IH]; intros m Hm Hrun.
  - simpl in Hrun. destruct Hrun as [[= <-]|[err [=]]]. right. eauto.
  - simpl in Hrun.
    destruct (negb _).
    { destruct Hrun as [[=]|[err [= _ <-]]]. right. eauto. }
    destruct (setKey _) as [k|ek fk|] eqn:Hk.
    2:{ destruct Hrun as [[=]|[err [= _ <-]]]. right. eauto. }
    2:{ destruct Hrun as [[=]|[err [=]]]. }
    destruct (setElem _) as [v|ev fv|] eqn:Hv.
    2:{ destruct Hrun as [[=]|[err [= _ <-]]]. right. eauto. }
    2:{ destruct Hrun as [[=]|[err [=]]]. }
    apply (IH (setMapIndex m k v)); [|exact Hrun].
    apply setMapIndex_Forall; simpl; eauto.
    intros k' v' [Hk' _]. eauto.
Qed.

Lemma sliceLoop_hasType (setElem : string → value → outcome) rw split i
    elemIfc field r :
  (∀ s h x, hasType elem h → setElem s h = ReturnNil x → hasType elem x) →
  hasType elem elemIfc → Forall (hasType elem) field →
  (sliceLoop setElem rw split i elemIfc field = ReturnNil r
   ∨ ∃ err, sliceLoop setElem rw split i elemIfc field = ReturnErr err r) →
  hasType (TSlice elem) r.
Proof.
  intros Helem. revert i elemIfc field.
  induction split as [|s split IH]; intros i elemIfc field Hifc Hfield Hrun.
  - simpl in Hrun. destruct Hrun as [[= <-]|[err [=]]]. simpl. eauto.
  - simpl in Hrun.
    destruct (setElem _ _) as [x|ex fx|] eqn:Hx.
    2:{ destruct Hrun as [[=]|[err [= _ <-]]]. simpl. eauto. }
    2:{ destruct Hrun as [[=]|[err [=]]]. }
    destruct rw; [|destruct Hrun as [[=]|[err [=]]]].
    apply (IH (S i) x (field ++ [x])); [eauto| |exact Hrun].
    apply Forall_app. split; [exact Hfield|]. constructor; [eauto|constructor].
Qed.

End TypedLoops.

Lemma setConfigValueHelper_hasType :
  ∀ (t : rtype) (rw : bool) (valFromConfig : string) (field field' : value),
    hasType t field →
    (setConfigValueHelper t rw valFromConfig field = ReturnNil field'
     ∨ ∃ err, setConfigValueHelper t rw valFromConfig field
              = ReturnErr err field') →
    hasType t field'.
Proof.
  induction t as [|name| | |key IHkey elem IHelem|elem IHelem];
    intros rw valFromConfig field field' Hfield Hrun.
  - simpl in Hrun. destruct rw; destruct Hrun as [[=]|[err [=]]]; subst.
    simpl. eauto.
  - simpl in Hrun. destruct rw; destruct Hrun as [[=]|[err [=]]]; subst.
    simpl. eauto.
  - simpl in Hrun. destruct rw.
    + destruct (Json.Unmarshal TInt valFromConfig) eqn:Hjson;
        destruct Hrun as [[=]|[err [=]]]; subst.
      * eapply Unmarshal_hasType. exact Hjson.
      * exact Hfield.
    + destruct Hrun as [[=]|[err [=]]]; subst. exact Hfield.
  - simpl in Hrun. destruct rw.
    + destruct (Json.Unmarshal TBool valFromConfig) eqn:Hjson;
        destruct Hrun as [[=]|[err [=]]]; subst.
      * eapply Unmarshal_hasType. exact Hjson.
      * exact Hfield.
    + destruct Hrun as [[=]|[err [=]]]; subst. exact Hfield.
  - rewrite setConfigValueHelper_map in Hrun.
    destruct rw; [|destruct Hrun as [[=]|[err [=]]]].
    eapply mapLoop_hasType; [| | |exact Hrun].
    + intros s k Hk. eapply IHkey; [apply hasType_zero|left; exact Hk].
    + intros s v Hv. eapply IHelem; [apply hasType_zero|left; exact Hv].
    + constructor.
  - rewrite setConfigValueHelper_slice in Hrun.
    destruct Hfield as (l & -> & Hl). simpl sliceElems in Hrun.
    eapply sliceLoop_hasType; [| | |exact Hrun].
    + intros s h x Hh Hx. eapply IHelem; [exact Hh|left; exact Hx].
    + apply hasType_zero.
    + exact Hl.
Qed.

(** X12. The conversion keeps every field at its type: when the field holds
    a value of its type and [setConfigValueHelper] returns, with nil or with
    an error, the field holds a value of its type again; an integer it
    stored is within 64 bits, and the keys and elements of maps and slices
    have the key and element types. *)
Theorem setConfigValueHelper_keeps_type :
  ∀ (t : rtype) (rw : bool) (valFromConfig : string) (field field' : value),
    hasType t field →
    (setConfigValueHelper t rw valFromConfig field = ReturnNil field'
     ∨ ∃ err, setConfigValueHelper t rw valFromConfig field
              = ReturnErr err field') →
    hasType t field'.
Proof.
  intros t rw valFromConfig field field' Hfield [Hnil|[err Herr]].
  - eapply setConfigValueHelper_hasType; [exact Hfield|]. left. exact Hnil.
  - eapply setConfigValueHelper_hasType; [exact Hfield|]. right.
    exists err. exact Herr.
Qed.

Lemma setConfigValueHelper_keeps_type_witness :
  hasType (TMap TString (TSlice TInt))
    (VMap (Some [(VString "a", VSlice [VInt 1]); (VString "b", VSlice [VInt 2])])).
Proof.
  refine (setConfigValueHelper_keeps_type (TMap TString (TSlice TInt)) true
    "a=1, b=2, c=99999999999999999999" (VMap None) _ _ _).
  - left. reflexivity.
  - right. eexists. vm_compute. reflexivity.
Defined.

(** *** Running the conversion again, and fields that cannot be set *)

Lemma setConfigValueHelper_fresh t rw valFromConfig field field' r :
  isSlice t = false →
  setConfigValueHelper t rw valFromConfig field = ReturnNil r →
  setConfigValueHelper t rw valFromConfig field' = ReturnNil r.
Proof.
  destruct t as [|name| | |key elem|elem]; simpl; intros Hslice Hrun;
    try discriminate Hslice; try exact Hrun.
  - destruct rw; [|discriminate].
    destruct (Json.Unmarshal TInt valFromConfig); try discriminate. exact Hrun.
  - destruct rw; [|discriminate].
    destruct (Json.Unmarshal TBool valFromConfig); try discriminate. exact Hrun.
Qed.

(** X13. For a field that is not a slice, what the field held does not
    matter to a call that returns nil, and a second call of [setValue] with
    the same configuration changes nothing: it returns nil again and leaves
    the value the first call stored. *)
Theorem setValue_again_is_stable :
  ∀ (sc : ScalerConfig) (f : Field) (params : Params) (field' : value),
    isSlice (fieldType f) = false →
    setValue sc f params = ReturnNil field' →
    setValue sc (withValue f field') params = ReturnNil field'.
Proof.
  intros sc f params field' Hslice Hrun.
  unfold setValue in *. simpl.
  destruct (configParamValue sc params) as [val found].
  destruct (found && IsDeprecated params); [discriminate|].
  destruct (if negb found && negb (String.eqb (Params.Default params) "")
            then (Params.Default params, true) else (val, found))
    as [val' found'].
  destruct (negb found' && (Params.Optional params || IsDeprecated params)).
  { congruence. }
  destruct (negb found' && negb (Params.Optional params || IsDeprecated params));
    [discriminate|].
  destruct (setConfigValueHelper (fieldType f) (fieldExported f) val' (fieldValue f))
    as [r|err r|] eqn:Hconv; [|discriminate..].
  injection Hrun as ->.
  rewrite (setConfigValueHelper_fresh _ _ _ _ field' field' Hslice Hconv).
  reflexivity.
Qed.

Lemma setValue_again_is_stable_witness :
  let sc := ScalerConfig.Build (<["mapVal" := "key1=1,key2=2"]> ∅) ∅ ∅ in
  let f := testField "MapVal" "name=mapVal, parsingOrder=triggerMetadata"
             (TMap TString TInt) in
  let m := VMap (Some [(VString "key1", VInt 1); (VString "key2", VInt 2)]) in
  setValue sc (withValue f m) (Params.Build "mapVal" false [TriggerMetadata] "" "")
  = ReturnNil m.
Proof.
  intros sc f m.
  refine (setValue_again_is_stable sc f
    (Params.Build "mapVal" false [TriggerMetadata] "" "") m eq_refl _).
  vm_compute. reflexivity.
Defined.

(** X14. A field that cannot be set (it was reached through an unexported
    struct field) is never given a value: [setConfigValueHelper] panics on
    it, or returns an error and leaves the elements or the value it held. For
    an integer or a boolean the error says that no parser matches the
    type. *)
Theorem unexported_field_is_never_set :
  ∀ (t : rtype) (valFromConfig : string) (field : value),
    (setConfigValueHelper t false valFromConfig field = Panics
     ∨ ∃ err,
         setConfigValueHelper t false valFromConfig field
         = ReturnErr err (if isSlice t then VSlice (sliceElems field) else field))
    ∧ (t = TInt ∨ t = TBool →
       setConfigValueHelper t false valFromConfig field
       = ReturnErr
           (ErrText ("unable to find matching parser for field type "
                     +:+ typeString t))
           field).
Proof.
  intros t valFromConfig field. split.
  - destruct t as [|name| | |key elem|elem]; simpl;
      try (left; reflexivity); try (right; eexists; reflexivity).
    pose proof (Split_length valFromConfig elemSeparator) as Hlen.
    destruct (Strings.Split valFromConfig elemSeparator) as [|s split];
      [simpl in Hlen; lia|].
    simpl.
    destruct (setConfigValueHelper elem true (Strings.TrimSpace s) (zero elem))
      as [x|err x|]; [left; reflexivity| |left; reflexivity].
    right. eexists. reflexivity.
  - intros [->| ->]; reflexivity.
Qed.

(** *** The entries of a converted map *)

Lemma setMapIndex_keys m k v kv :
  kv ∈ setMapIndex m k v → kv.1 = k ∨ ∃ v', (kv.1, v') ∈ m.
Proof.
  induction m as [|[k0 v0] m IH]; simpl.
  - intros Hin. apply list_elem_of_singleton in Hin as ->. left. reflexivity.
  - destruct (keyEq k0 k).
    + intros Hin. apply elem_of_cons in Hin as [->|Hin].
      * right. exists v0. left.
      * right. exists kv.2. right. destruct kv. exact Hin.
    + intros Hin. apply elem_of_cons in Hin as [->|Hin].
      * right. exists v0. left.
      * destruct (IH Hin) as [?|[v' Hv']]; [left; assumption|].
        right. exists v'. right. exact Hv'.
Qed.

Lemma setMapIndex_uniqueKeys m k v :
  uniqueKeys m → uniqueKeys (setMapIndex m k v).
Proof.
  induction m as [|[k0 v0] m IH]; simpl.
  - intros _. split; [constructor|exact I].
  - intros [Hk0 Hm]. destruct (keyEq k0 k) eqn:Heq; simpl.
    + split; assumption.
    + split; [|apply IH, Hm].
      apply Forall_forall. intros kv Hin.
      destruct (setMapIndex_keys _ _ _ _ Hin) as [->|[v' Hv']]; [exact Heq|].
      rewrite Forall_forall in Hk0. apply (Hk0 _ Hv').
Qed.

Lemma setMapIndex_length m k v :
  (1 ≤ length (setMapIndex m k v) ≤ S (length m))%nat
  ∧ (length m ≤ length (setMapIndex m k v))%nat.
Proof.
  induction m as [|[k0 v0] m IH]; simpl; [lia|].
  destruct (keyEq k0 k); simpl; lia.
Qed.

Lemma mapLoop_entries setKey setElem split m r :
  uniqueKeys m →
  mapLoop setKey setElem split m = ReturnNil r →
  ∃ m', r = VMap (Some m') ∧ uniqueKeys m'
        ∧ (length m ≤ length m' ≤ length m + length split)%nat
        ∧ (split ≠ [] → m' ≠ []).
Proof.
  revert m. induction split as [|s split IH]; intros m Hm Hrun.
  - injection Hrun as <-. exists m.
    split; [reflexivity|]. split; [exact Hm|]. split; [simpl; lia|].
    intros H. contradiction.
  - simpl in Hrun. destruct (negb _); [discriminate|].
    destruct (setKey _) as [k| |]; [|discriminate..].
    destruct (setElem _) as [v| |]; [|discriminate..].
    pose proof (setMapIndex_length m k v) as [Hlen Hlen'].
    destruct (IH _ (setMapIndex_uniqueKeys m k v Hm) Hrun)
      as (m' & -> & Hu & Hl & _).
    exists m'. split; [reflexivity|]. split; [exact Hu|]. split; [simpl; lia|].
    intros _ ->. simpl in Hl. lia.
Qed.

(** X15. A map field whose conversion returns nil holds a map that is not
    nil, whatever it held before, with at least one entry and at most one
    entry per clause of the raw value, and no two of its keys are equal: a
    key that comes again replaces the element of the entry it has. *)
Theorem converted_map_entries :
  ∀ (key elem : rtype) (rw : bool) (valFromConfig : string)
    (field field' : value),
    setConfigValueHelper (TMap key elem) rw valFromConfig field
    = ReturnNil field' →
    ∃ m, field' = VMap (Some m) ∧ uniqueKeys m
         ∧ (1 ≤ length m ≤ length (Strings.Split valFromConfig elemSeparator))%nat.
Proof.
  intros key elem rw valFromConfig field field' Hrun.
  rewrite setConfigValueHelper_map in Hrun. destruct rw; [|discriminate].
  pose proof (Split_length valFromConfig elemSeparator) as Hlen.
  apply mapLoop_entries in Hrun as (m & -> & Hu & Hl & Hne); [|exact I].
  exists m. split; [reflexivity|]. split; [exact Hu|]. simpl in Hl.
  split; [|lia].
  destruct m; [|simpl; lia]. exfalso. apply Hne; [|reflexivity].
  intros Hnil. rewrite Hnil in Hlen. simpl in Hlen. lia.
Qed.

Lemma converted_map_entries_witness :
  ∃ m,
    VMap (Some [(VString "a", VInt 3); (VString "b", VInt 2)]) = VMap (Some m)
    ∧ uniqueKeys m
    ∧ (1 ≤ length m ≤ length (Strings.Split "a=1, b=2, a=3" elemSeparator))%nat.
Proof.
  refine (converted_map_entries TString TInt true "a=1, b=2, a=3" (VMap None) _ _).
  vm_compute. reflexivity.
Defined.

(** ** More on the loop of [TypedConfig] *)

Lemma typedConfigLoop_returns sc fields errors done err out :
  typedConfigLoop sc fields errors done = Returns err out →
  Forall (λ f, typedConfigField sc f ≠ Panics) fields.
Proof.
  revert errors done.
  induction fields as [|f fields IH]; intros errors done Hrun; [constructor|].
  simpl in Hrun.
  destruct (typedConfigField sc f) as [v|e v|] eqn:Hf; [| |discriminate].
  - constructor; [rewrite Hf; discriminate|]. eapply IH. exact Hrun.
  - constructor; [rewrite Hf; discriminate|]. eapply IH. exact Hrun.
Qed.

Lemma TypedConfig_returns sc fields err out :
  TypedConfig sc (PointerToStruct fields) = Returns err out →
  Forall (λ f, typedConfigField sc f ≠ Panics) fields
  ∧ err = NewAggregate (omap (λ f, outcomeError (typedConfigField sc f)) fields)
  ∧ out = map (λ f, outcomeField f (typedConfigField sc f)) fields.
Proof.
  intros Hrun. simpl in Hrun.
  pose proof (typedConfigLoop_returns _ _ _ _ _ _ Hrun) as Hall.
  rewrite typedConfigLoop_all in Hrun by assumption.
  injection Hrun as <- <-. auto.
Qed.

Lemma withValue_same f : withValue f (fieldValue f) = f.
Proof. destruct f. reflexivity. Qed.

Lemma typedConfigField_untagged sc f :
  fieldTag f = "" → typedConfigField sc f = ReturnNil (fieldValue f).
Proof. intros Htag. unfold typedConfigField. rewrite Htag. reflexivity. Qed.

(** X16. [TypedConfig] changes values only: when it returns, the struct has
    the same fields in the same order, with their names, tags, types and
    exported flags, and a field without tag is exactly as it was. *)
Theorem TypedConfig_changes_values_only :
  ∀ (sc : ScalerConfig) (fields out : list Field) (err : option error),
    TypedConfig sc (PointerToStruct fields) = Returns err out →
    Forall2 (λ f f', sameField f f' ∧ (fieldTag f = "" → f' = f)) fields out.
Proof.
  intros sc fields out err Hrun.
  apply TypedConfig_returns in Hrun as (_ & _ & ->).
  induction fields as [|f fields IH]; simpl; constructor; [|exact IH].
  split.
  - unfold sameField. destruct (typedConfigField sc f); simpl; auto.
  - intros Htag. rewrite (typedConfigField_untagged sc f Htag). simpl.
    apply withValue_same.
Qed.

Lemma TypedConfig_changes_values_only_witness :
  let sc := ScalerConfig.Build (<["intVal" := "7"]> ∅) ∅ ∅ in
  let a := testField "IntVal" "name=intVal, parsingOrder=triggerMetadata" TInt in
  let b := {| fieldName := "hidden"; fieldTag := ""; fieldType := TString;
              fieldExported := false; fieldValue := VString "x" |} in
  Forall2 (λ f f', sameField f f' ∧ (fieldTag f = "" → f' = f))
    [a; b] [withValue a (VInt 7); b].
Proof.
  intros sc a b.
  refine (TypedConfig_changes_values_only sc [a; b] _ None _).
  vm_compute. reflexivity.
Defined.

(** X17. The aggregate [TypedConfig] returns holds at least one error and
    at most one error for each field that has a tag. *)
Theorem TypedConfig_one_error_per_tagged_field :
  ∀ (sc : ScalerConfig) (fields out : list Field) (agg : error),
    TypedConfig sc (PointerToStruct fields) = Returns (Some agg) out →
    (1 ≤ length (Errors agg)
     ≤ length (List.filter (λ f, negb (String.eqb (fieldTag f) "")) fields))%nat.
Proof.
  intros sc fields out agg Hrun.
  apply TypedConfig_returns in Hrun as (_ & Hagg & _).
  symmetry in Hagg. pose proof (NewAggregate_Errors _ _ Hagg) as ->.
  split.
  - destruct (omap _ fields); [discriminate|simpl; lia].
  - clear Hagg. induction fields as [|f fields IH]; simpl; [lia|].
    destruct (String.eqb_spec (fieldTag f) "") as [Htag|Htag]; simpl.
    + rewrite (typedConfigField_untagged sc f Htag). simpl. exact IH.
    + unfold omap in IH.
      destruct (outcomeError (typedConfigField sc f)); simpl; lia.
Qed.

Lemma TypedConfig_one_error_per_tagged_field_witness :
  let fields :=
    [ testField "A" "name=a, parsingOrder=triggerMetadata" TString;
      testField "B" "" TString;
      testField "C" "name=c, parsingOrder=triggerMetadata, optional" TString ] in
  (1 ≤ length [ErrText ("missing required parameter " +:+ Fmt.Quote "a"
                        +:+ " in [triggerMetadata]")]
   ≤ length (List.filter (λ f, negb (String.eqb (fieldTag f) "")) fields))%nat.
Proof.
  intros fields.
  refine (TypedConfig_one_error_per_tagged_field (ScalerConfig.Build ∅ ∅ ∅)
    fields fields
    (Aggregate [ErrText ("missing required parameter " +:+ Fmt.Quote "a"
                         +:+ " in [triggerMetadata]")]) _).
  vm_compute. reflexivity.
Defined.

Lemma errorsOf_NewAggregate errs : errorsOf (NewAggregate errs) = errs.
Proof. destruct errs; reflexivity. Qed.

(** X18. The fields are handled one by one, each on its own: when
    [TypedConfig] returns on two structs, it returns on the struct that has
    the fields of the first followed by the fields of the second, with the
    fields it left in the first followed by the fields it left in the
    second, and with the errors of the first followed by the errors of the
    second. *)
Theorem TypedConfig_of_more_fields :
  ∀ (sc : ScalerConfig) (fields1 fields2 out1 out2 : list Field)
    (err1 err2 : option error),
    TypedConfig sc (PointerToStruct fields1) = Returns err1 out1 →
    TypedConfig sc (PointerToStruct fields2) = Returns err2 out2 →
    TypedConfig sc (PointerToStruct (fields1 ++ fields2))
    = Returns (NewAggregate (errorsOf err1 ++ errorsOf err2)) (out1 ++ out2).
Proof.
  intros sc fields1 fields2 out1 out2 err1 err2 Hrun1 Hrun2.
  apply TypedConfig_returns in Hrun1 as (Hall1 & -> & ->).
  apply TypedConfig_returns in Hrun2 as (Hall2 & -> & ->).
  simpl. rewrite typedConfigLoop_all by (apply Forall_app; auto).
  rewrite !errorsOf_NewAggregate, omap_app, map_app. reflexivity.
Qed.

Lemma TypedConfig_of_more_fields_witness :
  let sc := ScalerConfig.Build (<["b" := "true"]> ∅) ∅ ∅ in
  let a := testField "A" "name=a, parsingOrder=triggerMetadata" TString in
  let b := testField "B" "name=b, parsingOrder=triggerMetadata" TBool in
  TypedConfig sc (PointerToStruct ([a] ++ [b]))
  = Returns
      (NewAggregate
         ([ErrText ("missing required parameter " +:+ Fmt.Quote "a"
                    +:+ " in [triggerMetadata]")] ++ []))
      ([a] ++ [withValue b (VBool true)]).
Proof.
  intros sc a b.
  refine (TypedConfig_of_more_fields sc [a] [b] [a] [withValue b (VBool true)]
    (Some (Aggregate [ErrText ("missing required parameter " +:+ Fmt.Quote "a"
                               +:+ " in [triggerMetadata]")]))
    None _ _); vm_compute; reflexivity.
Defined.

(** *** Panics *)

Section NoPanic.

Lemma mapLoop_no_panic (setKey setElem : string → outcome) split m :
  (∀ s, setKey s ≠ Panics) → (∀ s, setElem s ≠ Panics) →
  mapLoop setKey setElem split m ≠ Panics.
Proof.
  intros Hkey Helem. revert m.
  induction split as [|s split IH]; intros m; simpl; [discriminate|].
  destruct (negb _); [discriminate|].
  destruct (setKey _) as [k| |] eqn:Hk; [|discriminate|exfalso; eapply Hkey; eauto].
  destruct (setElem _) as [v| |] eqn:Hv; [|discriminate|exfalso; eapply Helem; eauto].
  apply IH.
Qed.

Lemma sliceLoop_no_panic (setElem : string → value → outcome) split i elemIfc field :
  (∀ s h, setElem s h ≠ Panics) →
  sliceLoop setElem true split i elemIfc field ≠ Panics.
Proof.
  intros Helem. revert i elemIfc field.
  induction split as [|s split IH]; intros i elemIfc field; simpl; [discriminate|].
  destruct (setElem _ _) as [x| |] eqn:Hx; [|discriminate|exfalso; eapply Helem; eauto].
  apply IH.
Qed.

Lemma setConfigValueHelper_no_panic t valFromConfig field :
  jsonFree t = true →
  setConfigValueHelper t true valFromConfig field ≠ Panics.
Proof.
  revert valFromConfig field.
  induction t as [|name| | |key IHkey elem IHelem|elem IHelem];
    intros valFromConfig field Hfree; simpl in Hfree; try discriminate Hfree.
  - simpl. discriminate.
  - simpl. discriminate.
  - apply andb_true_iff in Hfree as [Hk He].
    rewrite setConfigValueHelper_map. apply mapLoop_no_panic; auto.
  - rewrite setConfigValueHelper_slice. apply sliceLoop_no_panic; auto.
Qed.

End NoPanic.

Lemma setValue_no_panic sc f params :
  fieldExported f = true → jsonFree (fieldType f) = true →
  setValue sc f params ≠ Panics.
Proof.
  intros Hrw Hfree. unfold setValue.
  destruct (configParamValue sc params) as [val found].
  destruct (found && IsDeprecated params); [discriminate|].
  destruct (if negb found && negb (String.eqb (Params.Default params) "")
            then (Params.Default params, true) else (val, found))
    as [val' found'].
  destruct (negb found' && (Params.Optional params || IsDeprecated params));
    [discriminate|].
  destruct (negb found' && negb (Params.Optional params || IsDeprecated params));
    [discriminate|].
  rewrite Hrw.
  pose proof (setConfigValueHelper_no_panic (fieldType f) val' (fieldValue f) Hfree).
  destruct (setConfigValueHelper _ _ _ _); [discriminate|discriminate|contradiction].
Qed.

Lemma typedConfigLoop_panicked sc fields errors done :
  typedConfigLoop sc fields errors done = Panicked →
  Exists (λ f, typedConfigField sc f = Panics) fields.
Proof.
  revert errors done.
  induction fields as [|f fields IH]; intros errors done Hrun; [discriminate|].
  simpl in Hrun.
  destruct (typedConfigField sc f) as [v|e v|] eqn:Hf.
  - right. eapply IH. exact Hrun.
  - right. eapply IH. exact Hrun.
  - left. exact Hf.
Qed.

(** X19. [TypedConfig] panics on a pointer to a struct exactly when the loop
    body panics on one of its fields; and it does not when every field that
    has a tag is exported and has a type made of strings, maps and slices
    only: it then returns, whatever the configuration holds. *)
Theorem TypedConfig_panics_iff :
  ∀ (sc : ScalerConfig) (fields : list Field),
    (TypedConfig sc (PointerToStruct fields) = Panicked ↔
     Exists (λ f, typedConfigField sc f = Panics) fields)
    ∧ (Forall (λ f, fieldTag f ≠ "" →
                    fieldExported f = true ∧ jsonFree (fieldType f) = true)
         fields →
       ∃ err out, TypedConfig sc (PointerToStruct fields) = Returns err out).
Proof.
  intros sc fields. split; [split|].
  - intros Hrun. eapply typedConfigLoop_panicked. exact Hrun.
  - intros Hex. simpl. apply typedConfigLoop_panics, Hex.
  - intros Hall. eexists _, _. simpl. apply typedConfigLoop_all.
    eapply Forall_impl; [exact Hall|]. simpl. intros f Hf.
    unfold typedConfigField.
    destruct (String.eqb_spec (fieldTag f) ""); [discriminate|].
    destruct (paramsFromTag (fieldTag f) (fieldName f)) as [p [e|]];
      [discriminate|].
    destruct (Hf ltac:(assumption)) as [Hrw Hfree].
    apply setValue_no_panic; assumption.
Qed.

Lemma TypedConfig_panics_iff_witness :
  let sc := ScalerConfig.Build (<["n" := "null"]> (<["s" := "null"]> ∅)) ∅ ∅ in
  TypedConfig sc
    (PointerToStruct [testField "N" "name=n, parsingOrder=triggerMetadata" TInt])
  = Panicked
  ∧ ∃ err out,
      TypedConfig sc
        (PointerToStruct
           [testField "S" "name=s, parsingOrder=triggerMetadata" (TSlice TString)])
      = Returns err out.
Proof.
  intros sc. split.
  - apply (proj1 (TypedConfig_panics_iff sc _)). left. vm_compute. reflexivity.
  - apply (proj2 (TypedConfig_panics_iff sc _)).
    repeat constructor.
Defined.

(** ** Types and sources, for the whole struct *)

Lemma setValue_hasType sc f params field' :
  wellTyped f →
  (setValue sc f params = ReturnNil field'
   ∨ ∃ err, setValue sc f params = ReturnErr err field') →
  hasType (fieldType f) field'.
Proof.
  unfold wellTyped. intros Hty Hrun. unfold setValue in Hrun.
  destruct (configParamValue sc params) as [val found].
  destruct (found && IsDeprecated params).
  { destruct Hrun as [[=]|[err [= _ <-]]]. exact Hty. }
  destruct (if negb found && negb (String.eqb (Params.Default params) "")
            then (Params.Default params, true) else (val, found))
    as [val' found'].
  destruct (negb found' && (Params.Optional params || IsDeprecated params)).
  { destruct Hrun as [[= <-]|[err [=]]]. exact Hty. }
  destruct (negb found' && negb (Params.Optional params || IsDeprecated params)).
  { destruct Hrun as [[=]|[err [= _ <-]]]. exact Hty. }
  destruct (setConfigValueHelper (fieldType f) (fieldExported f) val' (fieldValue f))
    as [r|e r|] eqn:Hconv.
  - destruct Hrun as [[= <-]|[err [=]]].
    eapply setConfigValueHelper_hasType; [exact Hty|left; exact Hconv].
  - destruct Hrun as [[=]|[err [= _ <-]]].
    eapply setConfigValueHelper_hasType; [exact Hty|right; eexists; exact Hconv].
  - destruct Hrun as [[=]|[err [=]]].
Qed.

(** X20. [TypedConfig] keeps the struct well typed: when every field holds a
    value of its type and the call returns, with nil or with errors, every
    field holds a value of its type. *)
Theorem TypedConfig_keeps_types :
  ∀ (sc : ScalerConfig) (fields out : list Field) (err : option error),
    Forall wellTyped fields →
    TypedConfig sc (PointerToStruct fields) = Returns err out →
    Forall wellTyped out.
Proof.
  intros sc fields out err Hty Hrun.
  apply TypedConfig_returns in Hrun as (_ & _ & ->).
  apply Forall_map. eapply Forall_impl; [exact Hty|].
  intros f Hf. simpl. unfold typedConfigField.
  destruct (String.eqb (fieldTag f) ""); [destruct f; exact Hf|].
  destruct (paramsFromTag (fieldTag f) (fieldName f)) as [p [e|]];
    [destruct f; exact Hf|].
  destruct (setValue sc f p) as [r|e r|] eqn:Hset; [| |exact Hf].
  - unfold wellTyped. simpl.
    eapply setValue_hasType; [exact Hf|left; exact Hset].
  - unfold wellTyped. simpl.
    eapply setValue_hasType; [exact Hf|right; eexists; exact Hset].
Qed.

Lemma TypedConfig_keeps_types_witness :
  let f := testField "Ports" "name=ports, parsingOrder=triggerMetadata" (TSlice TInt) in
  Forall wellTyped [withValue f (VSlice [VInt 80; VInt 443])].
Proof.
  intros f.
  refine (TypedConfig_keeps_types
    (ScalerConfig.Build (<["ports" := "80, 443, http"]> ∅) ∅ ∅) [f] _
    (Some (Aggregate
       [ErrWrap ("unable to set param " +:+ Fmt.Quote "ports" +:+ " value "
                 +:+ Fmt.Quote "80, 443, http" +:+ ": ")
          (ErrWrap "slice element 2: "
             (ErrWrap "unable to unmarshal to field type int: "
                (ErrJSON TInt "http")))])) _ _).
  - constructor; [|constructor]. exact (hasType_zero (TSlice TInt)).
  - vm_compute. reflexivity.
Defined.

Lemma tagOrder_nil tagSplit :
  Forall (λ ts, keyIs parsingOrderTag ts && hasArg ts = false) tagSplit →
  tagOrder tagSplit = [].
Proof.
  intros Hall. unfold tagOrder.
  induction Hall as [|ts rest Hts _ IH]; [reflexivity|].
  simpl. rewrite Hts. exact IH.
Qed.

(** X21. A field whose tag has no [parsingOrder] clause with an argument
    reads no source: its parameters have the empty parsing order, and the
    loop body does on it what it does with an empty configuration, so only a
    default can give it a value. *)
Theorem field_without_parsing_order_reads_no_source :
  ∀ (sc : ScalerConfig) (f : Field),
    Forall (λ ts, keyIs parsingOrderTag ts && hasArg ts = false)
      (Strings.Split (fieldTag f) tagSeparator) →
    typedConfigField sc f = typedConfigField (ScalerConfig.Build ∅ ∅ ∅) f.
Proof.
  intros sc f Hall. unfold typedConfigField.
  destruct (String.eqb (fieldTag f) ""); [reflexivity|].
  destruct (paramsFromTag (fieldTag f) (fieldName f)) as [p [e|]] eqn:Hparse;
    [reflexivity|].
  assert (Horder : Params.ParsingOrder p = []).
  { assert (Hknown : Forall (λ ts, clauseKey ts ∈ knownKeys)
                       (Strings.Split (fieldTag f) tagSeparator)).
    { apply Forall_forall. intros ts Hin.
      destruct (decide (clauseKey ts ∈ knownKeys)) as [|Hun]; [assumption|].
      exfalso.
      assert (Hex : Exists (λ ts, clauseKey ts ∉ knownKeys)
                      (Strings.Split (fieldTag f) tagSeparator)).
      { apply Exists_exists. eauto. }
      destruct (tagClauses_unknown (fieldTag f) _
                  (Params.Build (fieldName f) false [] "" "") Hex)
        as (ts' & p' & _ & _ & Hrun).
      unfold paramsFromTag in Hparse. rewrite Hrun in Hparse. discriminate. }
    unfold paramsFromTag in Hparse.
    rewrite (tagClauses_reading _ _ _ Hknown) in Hparse.
    injection Hparse as <-. simpl. apply tagOrder_nil, Hall. }
  unfold setValue, configParamValue. rewrite Horder. reflexivity.
Qed.

Lemma field_without_parsing_order_reads_no_source_witness :
  let sc := ScalerConfig.Build (<["stringVal" := "value1"]> ∅) ∅ ∅ in
  let f := testField "StringVal" "name=stringVal, default=d, parsingOrder" TString in
  typedConfigField sc f = ReturnNil (VString "d").
Proof.
  intros sc f.
  refine (eq_trans (field_without_parsing_order_reads_no_source sc f _) _).
  - vm_compute Strings.Split. repeat constructor.
  - vm_compute. reflexivity.
Defined.

(** ** Integer fields *)

Lemma digits_string_of_uint d acc :
  Json.digits (NilEmpty.string_of_uint d) (Z.of_nat acc)
  = (Z.of_nat (Nat.of_uint_acc d acc), "").
Proof.
  revert acc. induction d as [|d IH|d IH|d IH|d IH|d IH|d IH|d IH|d IH|d IH|d IH];
    intros acc; [reflexivity|..];
    simpl NilEmpty.string_of_uint; simpl Nat.of_uint_acc;
    rewrite Nat.tail_mul_spec; rewrite <- IH;
    simpl Json.digits; f_equal; lia.
Qed.

Lemma digits_string_of_uint_Z d z :
  0 ≤ z →
  Json.digits (NilEmpty.string_of_uint d) z
  = (Z.of_nat (Nat.of_uint_acc d (Z.to_nat z)), "").
Proof.
  intros Hz. rewrite <- (Z2Nat.id z) at 1 by assumption.
  apply digits_string_of_uint.
Qed.

(** The digits [Nat.to_uint] gives are a zero alone or start with another
    digit than zero. *)
Lemma to_uint_shape k :
  Nat.to_uint k ≠ Decimal.Nil
  ∧ ∀ d, Nat.to_uint k = Decimal.D0 d → d = Decimal.Nil.
Proof.
  assert (Hnorm : Decimal.unorm (Nat.to_uint k) = Nat.to_uint k).
  { rewrite <- (DecimalNat.Unsigned.of_to k) at 2.
    rewrite DecimalNat.Unsigned.to_of. reflexivity. }
  split.
  - rewrite <- Hnorm. apply DecimalFacts.unorm_nonnil.
  - intros d Hd. rewrite Hd in Hnorm. rewrite DecimalFacts.unorm_D0 in Hnorm.
    unfold Decimal.unorm in Hnorm.
    destruct (Decimal.nzhead d) eqn:Hhead;
      try (exfalso; apply (DecimalFacts.nzhead_nonzero d d); congruence).
    injection Hnorm as <-. reflexivity.
Qed.

Lemma natural_Decimal k : Json.natural (Fmt.Decimal k) = Some (Z.of_nat k, "").
Proof.
  unfold Fmt.Decimal.
  destruct (to_uint_shape k) as [Hnil Hzero].
  pose proof (DecimalNat.Unsigned.of_to k) as Hk. unfold Nat.of_uint in Hk.
  destruct (Nat.to_uint k) as [|d|d|d|d|d|d|d|d|d|d]; [contradiction|..].
  1:{ rewrite (Hzero d eq_refl) in Hk |- *. simpl in Hk. subst k. reflexivity. }
  all: simpl in Hk; rewrite Nat.tail_mul_spec in Hk; simpl in Hk;
      simpl; rewrite digits_string_of_uint_Z by lia;
      vm_compute (Z.to_nat _); rewrite Hk; reflexivity.
Qed.

(** A text that starts with a digit has no white space to skip, is not the
    literal null and has no sign. *)
Lemma digit_first c rest :
  Json.digit c ≠ None →
  Json.skipSpace (String c rest) = String c rest
  ∧ Json.isLiteral "null" (String c rest) = false
  ∧ Json.integer (String c rest) = Json.natural (String c rest).
Proof.
  destruct c as [[] [] [] [] [] [] [] []]; intros Hdigit;
    try (exfalso; apply Hdigit; reflexivity);
    repeat split; reflexivity.
Qed.

Lemma Decimal_first k :
  ∃ c rest, Fmt.Decimal k = String c rest ∧ Json.digit c ≠ None.
Proof.
  pose proof (natural_Decimal k) as Hnat.
  destruct (Fmt.Decimal k) as [|c rest]; [discriminate|].
  exists c, rest. split; [reflexivity|]. simpl in Hnat.
  destruct (Json.digit c); [discriminate|discriminate].
Qed.

Lemma Unmarshal_Itoa n :
  Json.Unmarshal TInt (Itoa n)
  = if Z.leb Json.minInt n && Z.leb n Json.maxInt
    then Json.Decoded (VInt n) else Json.Invalid.
Proof.
  unfold Itoa. destruct (Z.ltb_spec n 0) as [Hneg|Hpos].
  - destruct (Decimal_first (Z.to_nat (- n))) as (c & rest & Htext & Hdigit).
    pose proof (natural_Decimal (Z.to_nat (- n))) as Hnat.
    unfold Json.Unmarshal.
    change (Json.skipSpace (String "-" (Fmt.Decimal (Z.to_nat (- n)))))
      with (String "-" (Fmt.Decimal (Z.to_nat (- n)))).
    change (Json.isLiteral "null" (String "-" (Fmt.Decimal (Z.to_nat (- n)))))
      with false.
    cbv iota. unfold Json.integer. rewrite Hnat.
    replace (- Z.of_nat (Z.to_nat (- n))) with n by lia. reflexivity.
  - destruct (Decimal_first (Z.to_nat n)) as (c & rest & Htext & Hdigit).
    pose proof (natural_Decimal (Z.to_nat n)) as Hnat.
    unfold Json.Unmarshal. rewrite Htext in Hnat |- *.
    destruct (digit_first c rest Hdigit) as (-> & -> & ->).
    rewrite Hnat. replace (Z.of_nat (Z.to_nat n)) with n by lia. reflexivity.
Qed.

(** X22. Integers go through their decimal text: for every integer of 64
    bits, converting its decimal text into an integer field returns nil and
    stores that integer; for an integer beyond 64 bits the call returns the
    error of the decoder and leaves the field. *)
Theorem integer_field_from_decimal_text :
  ∀ (n : Z) (field : value),
    setConfigValueHelper TInt true (Itoa n) field
    = if Z.leb (- 2 ^ 63) n && Z.leb n (2 ^ 63 - 1)
      then ReturnNil (VInt n)
      else ReturnErr
             (ErrWrap "unable to unmarshal to field type int: "
                (ErrJSON TInt (Itoa n)))
             field.
Proof.
  intros n field. simpl setConfigValueHelper. rewrite Unmarshal_Itoa.
  change Json.minInt with (- 2 ^ 63). change Json.maxInt with (2 ^ 63 - 1).
  destruct (Z.leb (- 2 ^ 63) n && Z.leb n (2 ^ 63 - 1)); reflexivity.
Qed.

(** ** White space in the tag *)

Section TrimFrontMore.
Context (p1 : ascii → bool) (p2 : ascii → ascii → bool)
        (p3 : ascii → ascii → ascii → bool).

(** Trimming goes on in what is appended exactly as after the part that
    was trimmed. *)
Lemma trimFront_app_trim s w :
  Strings.trimFront p1 p2 p3 (s +:+ w)
  = Strings.trimFront p1 p2 p3 (Strings.trimFront p1 p2 p3 s +:+ w).
Proof.
  remember (String.length s) as n eqn:Hn.
  revert s Hn. induction n as [n IH] using lt_wf_ind. intros s ->.
  assert (IH' : ∀ r, (String.length r < String.length s)%nat →
                     Strings.trimFront p1 p2 p3 (r +:+ w)
                     = Strings.trimFront p1 p2 p3
                         (Strings.trimFront p1 p2 p3 r +:+ w)).
  { intros r Hr. exact (IH _ Hr r eq_refl). }
  clear IH.
  destruct s as [|a [|b [|c r3]]].
  - reflexivity.
  - change (String a "" +:+ w) with (String a ("" +:+ w)).
    simpl Strings.trimFront at 3. destruct (p1 a) eqn:H1; [|reflexivity].
    simpl. rewrite H1. reflexivity.
  - change (String a (String b "") +:+ w) with (String a (String b "" +:+ w)).
    simpl Strings.trimFront at 3. destruct (p1 a) eqn:H1.
    + simpl Strings.trimFront at 1. rewrite H1.
      apply (IH' (String b "")). simpl. lia.
    + destruct (p2 a b) eqn:H2; [|reflexivity].
      change (String a (String b "" +:+ w)) with (String a (String b w)).
      simpl. rewrite H1, H2. reflexivity.
  - change (String a (String b (String c r3)) +:+ w)
      with (String a (String b (String c (r3 +:+ w)))).
    simpl Strings.trimFront at 3. destruct (p1 a) eqn:H1.
    + simpl Strings.trimFront at 1. rewrite H1.
      apply (IH' (String b (String c r3))). simpl. lia.
    + destruct (p2 a b) eqn:H2.
      * simpl Strings.trimFront at 1. rewrite H1, H2.
        apply (IH' (String c r3)). simpl. lia.
      * destruct (p3 a b c) eqn:H3; [|reflexivity].
        simpl Strings.trimFront at 1. rewrite H1, H2, H3.
        apply (IH' r3). simpl. lia.
Qed.

Lemma trimFront_idem s :
  Strings.trimFront p1 p2 p3 (Strings.trimFront p1 p2 p3 s)
  = Strings.trimFront p1 p2 p3 s.
Proof.
  pose proof (trimFront_app_trim s "") as H.
  rewrite !string_app_nil_r in H. symmetry. exact H.
Qed.

End TrimFrontMore.

Lemma isBlank_startsAscii w : isBlank w = true → startsAscii w = true.
Proof.
  intros Hw. rewrite <- (string_app_nil_r w).
  apply startsAscii_blank; [exact Hw|reflexivity].
Qed.

(** Blanks around a text do not change what [TrimSpace] gives. *)
Lemma TrimSpace_blank_suffix s w :
  isBlank w = true → Strings.TrimSpace (s +:+ w) = Strings.TrimSpace s.
Proof.
  intros Hw. unfold Strings.TrimSpace, Strings.TrimLeft.
  rewrite trimFront_app_trim.
  fold (Strings.TrimLeft s).
  destruct (Strings.TrimLeft s) as [|a y] eqn:Hy.
  - change ("" +:+ w) with w. rewrite <- (string_app_nil_r w).
    rewrite trimFront_blank by exact Hw. reflexivity.
  - rewrite trimFront_fixed.
    + apply TrimRight_blank, Hw.
    + apply space2_high.
    + apply space3_high.
    + rewrite <- Hy. apply trimFront_idem.
    + discriminate.
    + apply isBlank_startsAscii, Hw.
Qed.

Lemma TrimSpace_blank_prefix w s :
  isBlank w = true → Strings.TrimSpace (w +:+ s) = Strings.TrimSpace s.
Proof.
  intros Hw. unfold Strings.TrimSpace. rewrite TrimLeft_blank by exact Hw.
  reflexivity.
Qed.

Lemma TrimSpace_padString p :
  isBlank (padLeft p) = true → isBlank (padRight p) = true →
  Strings.TrimSpace (padString p) = Strings.TrimSpace (padText p).
Proof.
  intros Hl Hr. unfold padString.
  rewrite TrimSpace_blank_prefix, TrimSpace_blank_suffix by assumption.
  reflexivity.
Qed.

(** Splitting a text with blanks before and after it. *)
Lemma Split_prefix sep w s :
  lacks sep w = true →
  ∃ hd tl, Strings.Split s sep = hd :: tl
           ∧ Strings.Split (w +:+ s) sep = (w +:+ hd) :: tl.
Proof.
  intros Hw. pose proof (Split_length s sep) as Hlen.
  destruct (Strings.Split s sep) as [|hd tl] eqn:Hs; [simpl in Hlen; lia|].
  exists hd, tl. split; [reflexivity|].
  clear Hlen. induction w as [|a w IH]; [exact Hs|].
  unfold lacks in Hw. simpl in Hw.
  destruct (Ascii.eqb a sep) eqn:Ha; [discriminate|]. simpl in Hw.
  rewrite string_app_cons. simpl Strings.Split. rewrite Ha, (IH Hw).
  reflexivity.
Qed.

Lemma Split_suffix sep s w :
  lacks sep w = true →
  ∃ init last, Strings.Split s sep = init ++ [last]
               ∧ Strings.Split (s +:+ w) sep = init ++ [last +:+ w].
Proof.
  intros Hw. induction s as [|a s IH].
  - exists [], "". split; [reflexivity|].
    change ("" +:+ w) with w. rewrite Split_lacks by exact Hw. reflexivity.
  - destruct IH as (init & last & Hs & Hsw).
    rewrite string_app_cons. simpl Strings.Split.
    destruct (Ascii.eqb a sep).
    + exists ("" :: init), last. rewrite Hs, Hsw. split; reflexivity.
    + rewrite Hs, Hsw. destruct init as [|p init].
      * exists [], (String a last). split; reflexivity.
      * exists (String a p :: init), last. split; reflexivity.
Qed.

Lemma Split_padString_trimmed sep p :
  Strings.space1 sep = false →
  isBlank (padLeft p) = true → isBlank (padRight p) = true →
  map Strings.TrimSpace (Strings.Split (padString p) sep)
  = map Strings.TrimSpace (Strings.Split (padText p) sep).
Proof.
  intros Hsep Hl Hr. unfold padString.
  destruct (Split_suffix sep (padText p) (padRight p)) as (init & last & Hs & Hsw).
  { apply isBlank_lacks; assumption. }
  destruct (Split_prefix sep (padLeft p) (padText p +:+ padRight p))
    as (hd & tl & Hh & Hhw).
  { apply isBlank_lacks; assumption. }
  rewrite Hhw. simpl map. rewrite TrimSpace_blank_prefix by assumption.
  change (Strings.TrimSpace hd :: map Strings.TrimSpace tl)
    with (map Strings.TrimSpace (hd :: tl)).
  rewrite <- Hh, Hsw, Hs, !map_app. simpl.
  rewrite TrimSpace_blank_suffix by assumption. reflexivity.
Qed.

(** What a clause gives depends on its pieces through their trimmed texts. *)
Lemma tagClause_ext tag tag' ts ts' params :
  Strings.TrimSpace (nth 0 (Strings.Split ts tagKeySeparator) "")
  = Strings.TrimSpace (nth 0 (Strings.Split ts' tagKeySeparator) "") →
  length (Strings.Split ts tagKeySeparator)
  = length (Strings.Split ts' tagKeySeparator) →
  Strings.TrimSpace (nth 1 (Strings.Split ts tagKeySeparator) "")
  = Strings.TrimSpace (nth 1 (Strings.Split ts' tagKeySeparator) "") →
  map Strings.TrimSpace
    (Strings.Split (nth 1 (Strings.Split ts tagKeySeparator) "") tagValueSeparator)
  = map Strings.TrimSpace
      (Strings.Split (nth 1 (Strings.Split ts' tagKeySeparator) "") tagValueSeparator) →
  (tagClause tag ts params).1 = (tagClause tag' ts' params).1
  ∧ ((tagClause tag ts params).2 = None ↔ (tagClause tag' ts' params).2 = None).
Proof.
  intros Hkey Hlen Harg Horder. unfold tagClause. cbv zeta.
  rewrite Hkey, Hlen, Harg, Horder.
  repeat match goal with
         | |- context [if String.eqb ?a ?b then _ else _] =>
             destruct (String.eqb a b); [split; [reflexivity|tauto]|]
         end.
  simpl. split; [reflexivity|]. split; discriminate.
Qed.

Lemma partOk_lacks sep p :
  Strings.space1 sep = false → isBlank (padLeft p) = true →
  isBlank (padRight p) = true → lacks sep (padText p) = true →
  lacks sep (padString p) = true.
Proof. apply wellPadded_lacks. Qed.

Lemma clause_pieces c :
  clauseOk c →
  let sp := Strings.Split (clauseWritten c) tagKeySeparator in
  let sp' := Strings.Split (clausePlain c) tagKeySeparator in
  Strings.TrimSpace (nth 0 sp "") = Strings.TrimSpace (nth 0 sp' "")
  ∧ length sp = length sp'
  ∧ Strings.TrimSpace (nth 1 sp "") = Strings.TrimSpace (nth 1 sp' "")
  ∧ map Strings.TrimSpace (Strings.Split (nth 1 sp "") tagValueSeparator)
    = map Strings.TrimSpace (Strings.Split (nth 1 sp' "") tagValueSeparator).
Proof.
  destruct c as [key|key arg]; simpl.
  - intros (Hl & Hr & _ & Heq).
    rewrite !Split_lacks by (try apply partOk_lacks; auto).
    simpl. rewrite TrimSpace_padString by assumption. auto.
  - intros [(Hl & Hr & _ & Heq) (Hal & Har & _ & Haeq)].
    change (String tagKeySeparator "" +:+ padString arg)
      with (String tagKeySeparator (padString arg)).
    change (String tagKeySeparator "" +:+ padText arg)
      with (String tagKeySeparator (padText arg)).
    rewrite !Split_app, !Split_lacks by (try apply partOk_lacks; auto).
    simpl. rewrite !TrimSpace_padString by assumption.
    rewrite Split_padString_trimmed by (assumption || reflexivity). auto.
Qed.

Lemma tagClauses_blanks tag tag' clauses params :
  Forall clauseOk clauses →
  (tagClauses tag (map clauseWritten clauses) params).1
  = (tagClauses tag' (map clausePlain clauses) params).1
  ∧ ((tagClauses tag (map clauseWritten clauses) params).2 = None ↔
     (tagClauses tag' (map clausePlain clauses) params).2 = None).
Proof.
  intros Hall. revert params.
  induction Hall as [|c clauses Hc _ IH]; intros params; [simpl; tauto|].
  destruct (clause_pieces c Hc) as (Hkey & Hlen & Harg & Horder).
  destruct (tagClause_ext tag tag' _ _ params Hkey Hlen Harg Horder)
    as [Hfst Hsnd].
  simpl.
  destruct (tagClause tag (clauseWritten c) params) as [p1 e1].
  destruct (tagClause tag' (clausePlain c) params) as [p2 e2].
  simpl in Hfst, Hsnd. subst p2.
  destruct e1 as [e1|], e2 as [e2|]; simpl.
  - split; [reflexivity|]. split; discriminate.
  - exfalso. destruct Hsnd as [_ Hsnd]. discriminate (Hsnd eq_refl).
  - exfalso. destruct Hsnd as [Hsnd _]. discriminate (Hsnd eq_refl).
  - apply IH.
Qed.

(** X23. White space around the keys and the arguments of a tag does not
    matter: a tag whose clauses have blanks around their keys and arguments
    gives the parameters the tag without these blanks gives, and it is an
    error for the one exactly when it is for the other. *)
Theorem paramsFromTag_ignores_blanks :
  ∀ (clauses : list writtenClause) (fieldName : string),
    clauses ≠ [] → Forall clauseOk clauses →
    (paramsFromTag (Strings.Join (map clauseWritten clauses) ",") fieldName).1
    = (paramsFromTag (Strings.Join (map clausePlain clauses) ",") fieldName).1
    ∧ ((paramsFromTag (Strings.Join (map clauseWritten clauses) ",") fieldName).2
       = None ↔
       (paramsFromTag (Strings.Join (map clausePlain clauses) ",") fieldName).2
       = None).
Proof.
  intros clauses fieldName Hne Hall. unfold paramsFromTag.
  change "," with (String tagSeparator "").
  rewrite !Split_Join.
  - apply tagClauses_blanks, Hall.
  - destruct clauses; [contradiction|discriminate].
  - apply Forall_map. eapply Forall_impl; [exact Hall|].
    intros [key|key arg]; simpl.
    + intros (_ & _ & Hc & _). exact Hc.
    + intros [(_ & _ & Hc & _) (_ & _ & Hac & _)].
      unfold lacks. rewrite !allBytes_app.
      fold (lacks tagSeparator (padText key)) (lacks tagSeparator (padText arg)).
      rewrite Hc, Hac. reflexivity.
  - destruct clauses; [contradiction|discriminate].
  - apply Forall_map. eapply Forall_impl; [exact Hall|].
    intros [key|key arg]; simpl.
    + intros (Hl & Hr & Hc & _). apply partOk_lacks; auto.
    + intros [(Hl & Hr & Hc & _) (Hal & Har & Hac & _)].
      unfold lacks. rewrite !allBytes_app.
      fold (lacks tagSeparator (padString key)) (lacks tagSeparator (padString arg)).
      rewrite !partOk_lacks by auto. reflexivity.
Qed.

Lemma paramsFromTag_ignores_blanks_witness :
  (paramsFromTag "name=stringVal,  parsingOrder = resolvedEnv;triggerMetadata , optional " "StringVal").1
  = Params.Build "stringVal" true [ResolvedEnv; TriggerMetadata] "" "".
Proof.
  refine (eq_trans
    (proj1 (paramsFromTag_ignores_blanks
       [ ArgClause (Pad "" "name" "") (Pad "" "stringVal" "");
         ArgClause (Pad "  " "parsingOrder" " ") (Pad " " "resolvedEnv;triggerMetadata" " ");
         BareClause (Pad " " "optional" " ") ]
       "StringVal" _ _)) _).
  - discriminate.
  - repeat constructor.
  - vm_compute. reflexivity.
Defined.

(** ** The errors of [setValue] and of a map of strings *)

(** X24. The errors of [setValue] are of three kinds, and each names the
    parameter: the parameter is deprecated and a value was supplied; the
    parameter is required and missing; or the raw value could not be
    converted, and then the error holds the name, the raw value and the
    error the conversion of that raw value returned. *)
Theorem setValue_errors :
  ∀ (sc : ScalerConfig) (f : Field) (params : Params) (err : error)
    (field' : value),
    setValue sc f params = ReturnErr err field' →
    err = ErrText ("parameter " +:+ Fmt.Quote (Params.Name params)
                   +:+ " is deprecated" +:+ DeprecatedMessage params)
    ∨ err = ErrText ("missing required parameter "
                     +:+ Fmt.Quote (Params.Name params) +:+ " in "
                     +:+ Fmt.Bracketed (Params.ParsingOrder params))
    ∨ ∃ cause,
        setConfigValueHelper (fieldType f) (fieldExported f)
          (rawValue sc params) (fieldValue f)
        = ReturnErr cause field'
        ∧ err = ErrWrap ("unable to set param " +:+ Fmt.Quote (Params.Name params)
                         +:+ " value " +:+ Fmt.Quote (rawValue sc params)
                         +:+ ": ") cause.
Proof.
  intros sc f params err field' Hrun.
  unfold setValue in Hrun. unfold rawValue.
  destruct (configParamValue sc params) as [val found]. simpl.
  destruct (found && IsDeprecated params).
  { injection Hrun as <- _. left. reflexivity. }
  destruct found; simpl in Hrun.
  - destruct (setConfigValueHelper (fieldType f) (fieldExported f) val (fieldValue f))
      as [r|cause r|]; [discriminate| |discriminate].
    injection Hrun as <- <-. right. right. exists cause. auto.
  - destruct (String.eqb (Params.Default params) ""); simpl in Hrun.
    + destruct (Params.Optional params || IsDeprecated params); simpl in Hrun;
        [discriminate|].
      injection Hrun as <- _. right. left. reflexivity.
    + destruct (setConfigValueHelper (fieldType f) (fieldExported f)
                  (Params.Default params) (fieldValue f))
        as [r|cause r|]; [discriminate| |discriminate].
      injection Hrun as <- <-. right. right. exists cause. auto.
Qed.

Lemma setValue_errors_witness :
  let sc := ScalerConfig.Build (<["intVal" := "one"]> ∅) ∅ ∅ in
  let f := testField "IntVal" "name=intVal, parsingOrder=triggerMetadata" TInt in
  let params := Params.Build "intVal" false [TriggerMetadata] "" "" in
  ∃ cause,
    setConfigValueHelper TInt true "one" (VInt 0) = ReturnErr cause (VInt 0)
    ∧ cause = ErrWrap "unable to unmarshal to field type int: " (ErrJSON TInt "one").
Proof.
  intros sc f params.
  destruct (setValue_errors sc f params
    (ErrWrap ("unable to set param " +:+ Fmt.Quote "intVal" +:+ " value "
              +:+ Fmt.Quote "one" +:+ ": ")
       (ErrWrap "unable to unmarshal to field type int: " (ErrJSON TInt "one")))
    (VInt 0) eq_refl) as [Hdep|[Hmiss|(cause & Hconv & Herr)]].
  - discriminate Hdep.
  - discriminate Hmiss.
  - exists cause. split; [exact Hconv|]. injection Herr as <-. reflexivity.
Defined.

Lemma mapLoop_strings_ok split m :
  Forall keyValueClause split →
  mapLoop (λ k, setConfigValueHelper TString true k (zero TString))
    (λ v, setConfigValueHelper TString true v (zero TString)) split m
  = ReturnNil (VMap (Some (withEntries m split))).
Proof.
  intros Hall. revert m.
  induction Hall as [|s split Hs _ IH]; intros m; [reflexivity|].
  unfold keyValueClause in Hs. simpl. rewrite Hs. simpl. apply IH.
Qed.

Lemma mapLoop_strings_bad bad post m :
  ¬ keyValueClause bad →
  mapLoop (λ k, setConfigValueHelper TString true k (zero TString))
    (λ v, setConfigValueHelper TString true v (zero TString)) (bad :: post) m
  = ReturnErr
      (ErrText ("expected format key=value, got "
                +:+ Fmt.Quote (Strings.TrimSpace bad)))
      (VMap (Some m)).
Proof.
  intros Hbad. unfold keyValueClause in Hbad. simpl.
  destruct (Nat.eqb_spec
    (length (Strings.Split (Strings.TrimSpace bad) elemKeyValSeparator)) 2);
    [contradiction|reflexivity].
Qed.

(** X25. A map from strings to strings fails to convert for one reason only.
    When every clause between the commas has, once trimmed, exactly one
    separator of key and element, the call returns nil and the field holds
    a new map with the entries of all the clauses, put in their order;
    otherwise it returns the format error that quotes the first clause,
    trimmed, that has not, and the field holds a new map with the entries of
    the clauses before that one and no other. So an empty clause, as a comma
    at the end leaves one, is an error. What the field held before the call
    is in neither map. *)
Theorem map_of_strings_format :
  ∀ (valFromConfig : string) (field : value),
    (Forall keyValueClause (Strings.Split valFromConfig elemSeparator) →
     setConfigValueHelper (TMap TString TString) true valFromConfig field
     = ReturnNil
         (VMap (Some (withEntries []
                        (Strings.Split valFromConfig elemSeparator)))))
    ∧ (∀ pre bad post,
         Strings.Split valFromConfig elemSeparator = pre ++ bad :: post →
         Forall keyValueClause pre → ¬ keyValueClause bad →
         setConfigValueHelper (TMap TString TString) true valFromConfig field
         = ReturnErr
             (ErrText ("expected format key=value, got "
                       +:+ Fmt.Quote (Strings.TrimSpace bad)))
             (VMap (Some (withEntries [] pre)))).
Proof.
  intros valFromConfig field. rewrite setConfigValueHelper_map. split.
  - intros Hall. apply mapLoop_strings_ok, Hall.
  - intros pre bad post Hsplit Hpre Hbad. rewrite Hsplit.
    rewrite (mapLoop_app _ _ pre (bad :: post) [] (withEntries [] pre)
               (mapLoop_strings_ok pre [] Hpre)).
    apply mapLoop_strings_bad, Hbad.
Qed.

Lemma map_of_strings_format_witness :
  setConfigValueHelper (TMap TString TString) true "a=1, b=2, a=3,"
    (VMap (Some [(VString "z", VString "0")]))
  = ReturnErr
      (ErrText ("expected format key=value, got " +:+ Fmt.Quote ""))
      (VMap (Some [(VString "a", VString "3"); (VString "b", VString "2")])).
Proof.
  refine (proj2 (map_of_strings_format "a=1, b=2, a=3,"
                   (VMap (Some [(VString "z", VString "0")])))
            ["a=1"; " b=2"; " a=3"] "" [] eq_refl _ _).
  - repeat constructor.
  - unfold keyValueClause. vm_compute. discriminate.
Defined.
